(** * GR-Delta_Pulse: the pulse synthesiser [sdr_delta_pulse]

    A shallow embedding of [examples/deltaPulse.py].  The routine is a
    pipeline of whole-array NumPy operations on complex samples.  The
    embedding follows it statement by statement over the real numbers:
    a complex sample is a pair of reals, an array is a list, and every
    NumPy operation the routine calls is given its documented
    mathematical meaning (the inverse DFT is the defining sum, [hanning]
    is NumPy's formula, [fftshift] is [roll] by half the length).

    Rounding is not modelled: [astype(np.complex64)] is the identity and
    an equality proved here is an equality of the exact values, which is
    what the routine computes up to rounding.  What NumPy answers outside
    the real numbers is kept visible in the result type: an exception is
    [Raise], and a division by zero (which NumPy answers with [nan] or
    [inf] samples and a warning) is [NonFinite].

    The inverse transform is the exact sum, so away from the impulse its
    samples are exactly zero, where the library leaves a residue of the
    size of a rounding error.  The only place where the routine's result
    hinges on that difference is the guard [max_val > 0] when the taper
    is zero under the impulse (window on, centring off, three samples or
    more): the properties about the returned pulse leave that case out,
    and say so. *)

From Stdlib Require Import Reals.Reals Lra Lia ZArith List Bool.
Import ListNotations.

Open Scope R_scope.

(** ** Outcomes of a NumPy call *)

Inductive exn : Type :=
| ValueError.

Inductive outcome (A : Type) : Type :=
| Ok (a : A)
| Raise (e : exn)
| NonFinite.

Arguments Ok {A} a.
Arguments Raise {A} e.
Arguments NonFinite {A}.

Definition bind {A B : Type} (m : outcome A) (k : A -> outcome B) : outcome B :=
  match m with
  | Ok a => k a
  | Raise e => Raise e
  | NonFinite => NonFinite
  end.

Notation "x <- m ;; k" := (bind m (fun x => k))
  (at level 61, m at next level, right associativity).

(** ** Complex samples *)

Definition C : Type := (R * R)%type.

Definition C0 : C := (0, 0).
Definition C1 : C := (1, 0).

Definition Cadd (z w : C) : C := (fst z + fst w, snd z + snd w).

Definition Cmul (z w : C) : C :=
  (fst z * fst w - snd z * snd w, fst z * snd w + snd z * fst w).

(** complex by real: [z * r] and [z / r] *)
Definition Cscale (z : C) (r : R) : C := (fst z * r, snd z * r).
Definition Cdivr (z : C) (r : R) : C := (fst z / r, snd z / r).

Definition Copp (z : C) : C := (- fst z, - snd z).

(** [np.abs] of one complex sample *)
Definition Cabs (z : C) : R := sqrt (fst z * fst z + snd z * snd z).

(** [exp(i t)] *)
Definition cis (t : R) : C := (cos t, sin t).

Definition Csum (l : list C) : C := fold_right Cadd C0 l.

(** ** The NumPy operations the routine calls *)

(** [np.ones(N, dtype=np.complex64)]: a negative dimension raises. *)
Definition np_ones (N : Z) : outcome (list C) :=
  if (N <? 0)%Z then Raise ValueError
  else Ok (repeat C1 (Z.to_nat N)).

(** One term [X[k] * exp(2 pi i k n / N)] of the inverse transform. *)
Definition idft_term (N n : nat) (kX : nat * C) : C :=
  Cmul (snd kX) (cis (2 * PI * INR (fst kX) * INR n / INR N)).

(** Sample [n] of the inverse transform:
    [(1/N) * sum_k X[k] * exp(2 pi i k n / N)]. *)
Definition ifft_sample (X : list C) (n : nat) : C :=
  let N := length X in
  Cscale (Csum (map (idft_term N n) (combine (seq 0 N) X))) (/ INR N).

(** [np.fft.ifft(X)]: fewer than one data point raises. *)
Definition np_ifft (X : list C) : outcome (list C) :=
  match X with
  | [] => Raise ValueError
  | _ => Ok (map (ifft_sample X) (seq 0 (length X)))
  end.

(** [np.roll(a, shift)] on one axis: with [offset = shift mod n] the
    result is [a[n-offset:]] followed by [a[:n-offset]]. *)
Definition np_roll (a : list C) (shift : nat) : list C :=
  match a with
  | [] => a
  | _ =>
      let n := length a in
      let offset := Nat.modulo shift n in
      skipn (n - offset) a ++ firstn (n - offset) a
  end.

(** [np.fft.fftshift(x)]: [roll] by [dim // 2]. *)
Definition np_fftshift (x : list C) : list C :=
  np_roll x (Nat.div (length x) 2).

Definition np_abs (x : list C) : list R := map Cabs x.

(** [np.max]: an empty array has no maximum and raises. *)
Definition np_max (l : list R) : outcome R :=
  match l with
  | [] => Raise ValueError
  | r :: t => Ok (fold_left Rmax t r)
  end.

(** [x / m] for an array [x] and a real scalar [m].  A zero divisor
    leaves the real numbers. *)
Definition np_true_divide (x : list C) (m : R) : outcome (list C) :=
  if Req_dec_T m 0 then NonFinite
  else Ok (map (fun z => Cdivr z m) x).

(** [x * a] for an array [x] and a real scalar [a]. *)
Definition np_scale (x : list C) (a : R) : list C :=
  map (fun z => Cscale z a) x.

(** [np.arange(start, stop, step)] for a positive integer step. *)
Definition np_arange (start stop step : Z) : list Z :=
  map (fun i => (start + step * Z.of_nat i)%Z)
      (seq 0 (Z.to_nat ((stop - start + step - 1) / step))).

(** [np.hanning(M)]. *)
Definition np_hanning (M : Z) : list R :=
  if (M <? 1)%Z then []
  else if (M =? 1)%Z then [1]
  else map (fun n => 1/2 + 1/2 * cos (PI * IZR n / IZR (M - 1)))
           (np_arange (1 - M) M 2).

(** [x * w] for two one-dimensional arrays, with NumPy's broadcasting:
    equal lengths multiply sample by sample, a length-one operand is
    stretched, any other pair of shapes raises. *)
Definition np_multiply (x : list C) (w : list R) : outcome (list C) :=
  if Nat.eqb (length x) (length w) then
    Ok (map (fun zr => Cscale (fst zr) (snd zr)) (combine x w))
  else match x, w with
       | [z], _ => Ok (map (fun r => Cscale z r) w)
       | _, [r] => Ok (map (fun z => Cscale z r) x)
       | _, _ => Raise ValueError
       end.

(** ** The routine *)

(** The prefix shared by every call: the flat spectrum and its inverse
    transform (source lines 18 and 21). *)
Definition time_domain (N : Z) : outcome (list C) :=
  X <- np_ones N ;;
  np_ifft X.

(** Source line 28, [x / np.max(np.abs(x)) * amplitude]. *)
Definition normalize (x : list C) (amplitude : R) : outcome (list C) :=
  m <- np_max (np_abs x) ;;
  y <- np_true_divide x m ;;
  Ok (np_scale y amplitude).

(** Source lines 32 to 37: the taper and the guarded second pass. *)
Definition apply_window (N : Z) (x : list C) (amplitude : R) : outcome (list C) :=
  let w := np_hanning N in
  x <- np_multiply x w ;;
  max_val <- np_max (np_abs x) ;;
  if Rlt_dec 0 max_val then
    y <- np_true_divide x max_val ;;
    Ok (np_scale y amplitude)
  else Ok x.

Definition sdr_delta_pulse (N : Z) (amplitude : R) (window center : bool)
  : outcome (list C) :=
  x <- time_domain N ;;
  let x := if center then np_fftshift x else x in
  x <- normalize x amplitude ;;
  if window then apply_window N x amplitude
  else Ok x.

(** ** The routine with its completed statements recorded *)

(** The statements of the routine that call NumPy. *)
Inductive stmt : Type :=
| StmtSpectrum   (* line 18, [np.ones] *)
| StmtInverse    (* line 21, [np.fft.ifft] *)
| StmtCenter     (* line 25, [np.fft.fftshift] *)
| StmtNormalize  (* line 28 *)
| StmtWindow.    (* lines 32 to 37 *)

(** A run: the statements completed so far, in order, and the outcome. *)
Definition traced (A : Type) : Type := (list stmt * outcome A)%type.

Definition tret {A : Type} (a : A) : traced A := ([], Ok a).

(** A statement enters the record when it has completed; one that raises
    does not. *)
Definition run {A : Type} (s : stmt) (o : outcome A) : traced A :=
  (match o with Ok _ => [s] | _ => [] end, o).

Definition tbind {A B : Type} (m : traced A) (k : A -> traced B) : traced B :=
  match snd m with
  | Ok a => (fst m ++ fst (k a), snd (k a))
  | Raise e => (fst m, Raise e)
  | NonFinite => (fst m, NonFinite)
  end.

Notation "x <~ m ;; k" := (tbind m (fun x => k))
  (at level 61, m at next level, right associativity).

(** [sdr_delta_pulse], statement by statement, with the record kept. *)
Definition sdr_delta_pulse_traced
  (N : Z) (amplitude : R) (window center : bool) : traced (list C) :=
  X <~ run StmtSpectrum (np_ones N) ;;
  x <~ run StmtInverse (np_ifft X) ;;
  x <~ (if center then run StmtCenter (Ok (np_fftshift x)) else tret x) ;;
  x <~ run StmtNormalize (normalize x amplitude) ;;
  if window then run StmtWindow (apply_window N x amplitude)
  else tret x.

(** ** The shape every intermediate array has *)

(** [impulse pre post v]: the real sample [v] at index [pre], zero at the
    [pre] indices before it and the [post] indices after it. *)
Definition impulse (pre post : nat) (v : R) : list C :=
  repeat C0 pre ++ (v, 0) :: repeat C0 post.

(** Index of the impulse after the optional centring. *)
Definition peak_index (n : nat) (center : bool) : nat :=
  if center then Nat.div n 2 else 0%nat.

(** Whether the taper leaves the impulse standing: its tap under the
    impulse is positive exactly for a single-sample pulse and for a
    centred pulse of length other than 2. *)
Definition taper_keeps_peak (N : Z) (center : bool) : bool :=
  (N =? 1)%Z || (center && negb (N =? 2)%Z).

(** The value the returned sequence carries at the impulse index. *)
Definition final_peak (N : Z) (amplitude : R) (window center : bool) : R :=
  if window then
    if taper_keeps_peak N center then Rabs amplitude else 0
  else amplitude.

(** Sum of the powers [s, s+1, ..., s+m-1] of [exp(i theta)]: what the
    inverse transform adds up on the flat spectrum. *)
Definition geo (theta : R) (s m : nat) : C :=
  Csum (map (fun k => cis (INR k * theta)) (seq s m)).

(** ** The demonstration script, its numeric part (source lines 50, 74
    and 83) *)

(** [np.concatenate(arrays)] on one-dimensional arrays: an empty list of
    arrays raises. *)
Definition np_concatenate (arrays : list (list C)) : outcome (list C) :=
  match arrays with
  | [] => Raise ValueError
  | _ => Ok (concat arrays)
  end.

(** One term [x[j] * exp(-2 pi i j k / n)] of the forward transform. *)
Definition dft_term (n k : nat) (jx : nat * C) : C :=
  Cmul (snd jx) (cis (- (2 * PI * INR (fst jx) * INR k / INR n))).

(** Bin [k] of the forward transform: [sum_j x[j] * exp(-2 pi i j k / n)]. *)
Definition fft_sample (x : list C) (k : nat) : C :=
  let n := length x in
  Csum (map (dft_term n k) (combine (seq 0 n) x)).

(** [np.fft.fft(x)]: fewer than one data point raises. *)
Definition np_fft (x : list C) : outcome (list C) :=
  match x with
  | [] => Raise ValueError
  | _ => Ok (map (fft_sample x) (seq 0 (length x)))
  end.

(** Lines 50 and 74: [pulse = np.concatenate([pulse, pulse])] followed by
    [freq_response = np.fft.fft(pulse)]. *)
Definition freq_response (pulse : list C) : outcome (list C) :=
  doubled <- np_concatenate [pulse; pulse] ;;
  np_fft doubled.

(** [np.log10] of one real: zero and negative arguments leave the real
    numbers ([-inf] or [nan] with a warning). *)
Definition np_log10 (r : R) : outcome R :=
  if Rlt_dec 0 r then Ok (ln r / ln 10) else NonFinite.

Fixpoint map_outcome {A B : Type} (f : A -> outcome B) (l : list A)
  : outcome (list B) :=
  match l with
  | [] => Ok []
  | a :: t =>
      b <- f a ;;
      bs <- map_outcome f t ;;
      Ok (b :: bs)
  end.

(** Line 83: [20 * np.log10(np.abs(freq_response) + 1e-10)]. *)
Definition magnitude_db (response : list C) : outcome (list R) :=
  map_outcome (fun r => l <- np_log10 (r + 1 / 10 ^ 10) ;; Ok (20 * l))
              (np_abs response).

(** * Proofs *)

Lemma bind_Ok {A B : Type} (a : A) (k : A -> outcome B) :
  bind (Ok a) k = k a.
Proof. reflexivity. Qed.

(** ** The NumPy operations on small inputs *)

Example np_ones_negative : np_ones (-1) = Raise ValueError.
Proof. reflexivity. Qed.

Example np_ifft_no_points : np_ifft [] = Raise ValueError.
Proof. reflexivity. Qed.

Example np_ifft_single_point (z : C) : np_ifft [z] = Ok [z].
Proof.
  destruct z as [a b]. unfold np_ifft, ifft_sample, idft_term, Csum.
  simpl. unfold cis, Cmul, Cadd, Cscale, C0. simpl.
  replace (2 * PI * 0 * 0 / 1) with 0 by field.
  rewrite cos_0, sin_0. do 3 f_equal; field.
Qed.

Example np_arange_odd_steps : np_arange (-2) 3 2 = [(-2)%Z; 0%Z; 2%Z].
Proof. reflexivity. Qed.

Example np_roll_by_two (a b c d e : C) :
  np_roll [a; b; c; d; e] 2 = [d; e; a; b; c].
Proof. reflexivity. Qed.

Example np_fftshift_even_length (a b c d : C) :
  np_fftshift [a; b; c; d] = [c; d; a; b].
Proof. reflexivity. Qed.

Example np_fftshift_odd_length (a b c d e : C) :
  np_fftshift [a; b; c; d; e] = [d; e; a; b; c].
Proof. reflexivity. Qed.

Example np_max_of_three : np_max [0; 3; 1] = Ok 3.
Proof.
  simpl. f_equal. rewrite (Rmax_right 0 3), (Rmax_left 3 1); lra.
Qed.

Example np_multiply_shape_mismatch (a b c : C) :
  np_multiply [a; b; c] [1; 1] = Raise ValueError.
Proof. reflexivity. Qed.

Example np_hanning_one_tap : np_hanning 1 = [1].
Proof. reflexivity. Qed.

Example np_hanning_two_taps : np_hanning 2 = [0; 0].
Proof.
  assert (Hw : np_hanning 2
               = [1/2 + 1/2 * cos (PI * IZR (-1) / IZR 1);
                  1/2 + 1/2 * cos (PI * IZR 1 / IZR 1)]) by reflexivity.
  rewrite Hw.
  replace (PI * IZR (-1) / IZR 1) with (- PI) by field.
  replace (PI * IZR 1 / IZR 1) with PI by field.
  rewrite cos_neg, cos_PI. repeat f_equal; lra.
Qed.

Example np_hanning_three_taps : np_hanning 3 = [0; 1; 0].
Proof.
  assert (Hw : np_hanning 3
               = [1/2 + 1/2 * cos (PI * IZR (-2) / IZR 2);
                  1/2 + 1/2 * cos (PI * IZR 0 / IZR 2);
                  1/2 + 1/2 * cos (PI * IZR 2 / IZR 2)]) by reflexivity.
  rewrite Hw.
  replace (PI * IZR (-2) / IZR 2) with (- PI) by field.
  replace (PI * IZR 0 / IZR 2) with 0 by field.
  replace (PI * IZR 2 / IZR 2) with PI by field.
  rewrite cos_neg, cos_PI, cos_0. repeat f_equal; lra.
Qed.

(** ** Complex arithmetic on the samples that occur *)

Lemma Cmul_C1_l (z : C) : Cmul C1 z = z.
Proof.
  destruct z as [a b]. unfold Cmul, C1. simpl. f_equal; ring.
Qed.

Lemma Cabs_real (v : R) : Cabs (v, 0) = Rabs v.
Proof.
  unfold Cabs. simpl.
  replace (v * v + 0 * 0) with (Rsqr v) by (unfold Rsqr; ring).
  apply sqrt_Rsqr_abs.
Qed.

Lemma Cabs_C0 : Cabs C0 = 0.
Proof.
  unfold C0. rewrite Cabs_real. apply Rabs_R0.
Qed.

Lemma Cscale_C0 (r : R) : Cscale C0 r = C0.
Proof. unfold Cscale, C0. simpl. f_equal; ring. Qed.

Lemma Cdivr_C0 (r : R) : Cdivr C0 r = C0.
Proof. unfold Cdivr, C0, Rdiv. simpl. f_equal; ring. Qed.

Lemma Cscale_real (v r : R) : Cscale (v, 0) r = (v * r, 0).
Proof. unfold Cscale. simpl. f_equal; ring. Qed.

Lemma Cdivr_real (v r : R) : Cdivr (v, 0) r = (v / r, 0).
Proof. unfold Cdivr, Rdiv. simpl. f_equal; ring. Qed.

(** ** The inverse transform of the flat spectrum *)

Section FlatSpectrum.

Variable theta : R.

Lemma geo_S (s m : nat) :
  geo theta s (S m) = Cadd (cis (INR s * theta)) (geo theta (S s) m).
Proof. reflexivity. Qed.

(** Telescoping: [(exp(i theta) - 1) * geo theta s m] is the difference of
    the two end powers, written on real and imaginary parts. *)
Lemma geo_telescope (m : nat) : forall s : nat,
  (cos theta - 1) * fst (geo theta s m) - sin theta * snd (geo theta s m)
    = cos (INR (s + m) * theta) - cos (INR s * theta)
  /\
  (cos theta - 1) * snd (geo theta s m) + sin theta * fst (geo theta s m)
    = sin (INR (s + m) * theta) - sin (INR s * theta).
Proof.
  induction m as [|m IH]; intros s.
  - rewrite Nat.add_0_r. unfold geo. simpl. split; ring.
  - rewrite geo_S. destruct (IH (S s)) as [IHre IHim].
    replace (s + S m)%nat with (S s + m)%nat by lia.
    assert (Hc : cos (INR (S s) * theta)
                 = cos (INR s * theta) * cos theta
                   - sin (INR s * theta) * sin theta).
    { rewrite S_INR, Rmult_plus_distr_r, Rmult_1_l. apply cos_plus. }
    assert (Hs : sin (INR (S s) * theta)
                 = sin (INR s * theta) * cos theta
                   + cos (INR s * theta) * sin theta).
    { rewrite S_INR, Rmult_plus_distr_r, Rmult_1_l. apply sin_plus. }
    rewrite Hc in IHre. rewrite Hs in IHim.
    unfold Cadd, cis. simpl fst. simpl snd. split; lra.
Qed.

(** A full turn of a root of unity other than 1 sums to zero. *)
Lemma geo_full_turn (m : nat) :
  cos theta < 1 ->
  cos (INR m * theta) = 1 ->
  sin (INR m * theta) = 0 ->
  geo theta 0 m = C0.
Proof.
  intros Hlt Hcos Hsin.
  destruct (geo_telescope m 0%nat) as [Hre Him].
  simpl (0 + m)%nat in *. simpl INR in Hre, Him.
  rewrite Rmult_0_l, cos_0, Hcos in Hre.
  rewrite Rmult_0_l, sin_0, Hsin in Him.
  pose proof (sin2_cos2 theta) as Hunit. unfold Rsqr in Hunit.
  destruct (geo theta 0 m) as [A B]. simpl in Hre, Him.
  set (c := cos theta) in *. set (d := sin theta) in *.
  assert (HA : (2 - 2 * c) * A = 0).
  { replace ((2 - 2 * c) * A)
      with ((c - 1) * ((c - 1) * A - d * B) + d * ((c - 1) * B + d * A)
            + (1 - (d * d + c * c)) * A) by ring.
    rewrite Hre, Him, Hunit. ring. }
  assert (HB : (2 - 2 * c) * B = 0).
  { replace ((2 - 2 * c) * B)
      with ((c - 1) * ((c - 1) * B + d * A) - d * ((c - 1) * A - d * B)
            + (1 - (d * d + c * c)) * B) by ring.
    rewrite Hre, Him, Hunit. ring. }
  apply Rmult_integral in HA. apply Rmult_integral in HB.
  unfold C0. f_equal; [destruct HA | destruct HB]; lra.
Qed.

End FlatSpectrum.

Lemma geo_zero_angle (m : nat) : forall s : nat, geo 0 s m = (INR m, 0).
Proof.
  induction m as [|m IH]; intros s.
  - reflexivity.
  - rewrite geo_S, IH, S_INR, Rmult_0_r. unfold Cadd, cis.
    rewrite cos_0, sin_0. simpl. f_equal; ring.
Qed.

Lemma idft_terms_ones (N n m : nat) : forall s : nat,
  Csum (map (idft_term N n) (combine (seq s m) (repeat C1 m)))
  = geo (2 * PI * INR n / INR N) s m.
Proof.
  induction m as [|m IH]; intros s.
  - reflexivity.
  - rewrite geo_S, <- IH. simpl. f_equal.
    unfold idft_term. simpl fst. simpl snd. rewrite Cmul_C1_l.
    f_equal. unfold Rdiv. ring.
Qed.

Lemma ifft_sample_ones (N n : nat) :
  ifft_sample (repeat C1 N) n
  = Cscale (geo (2 * PI * INR n / INR N) 0 N) (/ INR N).
Proof.
  unfold ifft_sample. rewrite repeat_length, idft_terms_ones. reflexivity.
Qed.

Lemma ifft_sample_ones_0 (N : nat) :
  (1 <= N)%nat -> ifft_sample (repeat C1 N) 0 = C1.
Proof.
  intros HN. rewrite ifft_sample_ones.
  replace (2 * PI * INR 0 / INR N) with 0
    by (simpl; unfold Rdiv; ring).
  rewrite geo_zero_angle. unfold Cscale, C1. simpl.
  assert (INR N <> 0) by (apply not_0_INR; lia).
  f_equal; field; assumption.
Qed.

Lemma root_of_unity_not_1 (N n : nat) :
  (0 < n < N)%nat -> cos (2 * PI * INR n / INR N) < 1.
Proof.
  intros [Hn HN].
  assert (HNpos : 0 < INR N) by (apply lt_0_INR; lia).
  assert (Hnpos : 0 < INR n) by (apply lt_0_INR; lia).
  assert (HnN : INR n < INR N) by (apply lt_INR; lia).
  pose proof PI_RGT_0 as Hpi.
  replace (2 * PI * INR n / INR N) with (2 * (PI * (INR n / INR N)))
    by (unfold Rdiv; ring).
  rewrite cos_2a_sin.
  assert (Hq0 : 0 < INR n / INR N) by (apply Rdiv_lt_0_compat; assumption).
  assert (Hq1 : INR n / INR N < 1).
  { apply Rmult_lt_reg_r with (r := INR N); [assumption|].
    unfold Rdiv. rewrite Rmult_assoc, Rinv_l by lra. lra. }
  assert (Hsin : 0 < sin (PI * (INR n / INR N))).
  { apply sin_gt_0; nra. }
  nra.
Qed.

Lemma ifft_sample_ones_pos (N n : nat) :
  (0 < n < N)%nat -> ifft_sample (repeat C1 N) n = C0.
Proof.
  intros Hn. rewrite ifft_sample_ones.
  assert (HN : INR N <> 0) by (apply not_0_INR; lia).
  assert (Hturn : INR N * (2 * PI * INR n / INR N) = 0 + 2 * INR n * PI)
    by (field; assumption).
  rewrite geo_full_turn.
  - apply Cscale_C0.
  - apply root_of_unity_not_1; assumption.
  - rewrite Hturn, cos_period. apply cos_0.
  - rewrite Hturn, sin_period. apply sin_0.
Qed.

Lemma map_const {A B : Type} (f : A -> B) (c : B) (l : list A) :
  (forall a, In a l -> f a = c) -> map f l = repeat c (length l).
Proof.
  induction l as [|a l IH]; intros Hf.
  - reflexivity.
  - simpl. rewrite (Hf a) by (left; reflexivity).
    f_equal. apply IH. intros b Hb. apply Hf. right; assumption.
Qed.

(** The inverse transform of [N] ones is the unit impulse at index 0. *)
Lemma np_ifft_ones (n : nat) :
  np_ifft (repeat C1 (S n)) = Ok (impulse 0 n 1).
Proof.
  assert (Hifft : np_ifft (repeat C1 (S n))
                  = Ok (map (ifft_sample (repeat C1 (S n)))
                            (seq 0 (length (repeat C1 (S n))))))
    by reflexivity.
  rewrite Hifft, repeat_length. f_equal.
  rewrite <- cons_seq, map_cons. unfold impulse.
  change (repeat C0 0 ++ (1, 0) :: repeat C0 n) with (C1 :: repeat C0 n).
  f_equal.
  - apply ifft_sample_ones_0. lia.
  - rewrite (map_const _ C0).
    + rewrite length_seq. reflexivity.
    + intros k Hk. apply in_seq in Hk. apply ifft_sample_ones_pos. lia.
Qed.

Lemma time_domain_ok (N : Z) :
  (1 <= N)%Z ->
  time_domain N = Ok (impulse 0 (Z.to_nat N - 1) 1).
Proof.
  intros HN. unfold time_domain, np_ones.
  destruct (Z.ltb_spec N 0) as [Hneg|_]; [lia|].
  simpl bind.
  replace (Z.to_nat N) with (S (Z.to_nat N - 1)) at 1 by lia.
  apply np_ifft_ones.
Qed.

(** ** Lists of zeros and impulses *)

Lemma skipn_zeros {A : Type} (c : A) (k n : nat) :
  skipn k (repeat c n) = repeat c (n - k).
Proof.
  revert n. induction k as [|k IH]; intros [|n]; simpl; auto.
Qed.

Lemma firstn_zeros {A : Type} (c : A) (k n : nat) :
  (k <= n)%nat -> firstn k (repeat c n) = repeat c k.
Proof.
  revert n. induction k as [|k IH]; intros [|n] Hk; simpl; try lia; auto.
  f_equal. apply IH. lia.
Qed.

Lemma impulse_length (pre post : nat) (v : R) :
  length (impulse pre post v) = (pre + 1 + post)%nat.
Proof.
  unfold impulse. rewrite length_app, repeat_length. simpl.
  rewrite repeat_length. lia.
Qed.

Lemma impulse_nth_peak (pre post : nat) (v : R) :
  nth pre (impulse pre post v) C0 = (v, 0).
Proof.
  unfold impulse. rewrite app_nth2; rewrite repeat_length; [|lia].
  rewrite Nat.sub_diag. reflexivity.
Qed.

Lemma impulse_nth_off (pre post : nat) (v : R) (i : nat) :
  i <> pre -> nth i (impulse pre post v) C0 = C0.
Proof.
  intros Hi. unfold impulse.
  destruct (Nat.lt_ge_cases i pre) as [Hlt|Hge].
  - rewrite app_nth1 by (rewrite repeat_length; assumption).
    apply nth_repeat.
  - rewrite app_nth2; rewrite repeat_length; [|assumption].
    destruct (i - pre)%nat as [|j] eqn:Hj; [lia|].
    simpl. apply nth_repeat.
Qed.

Lemma impulse_zero (pre post : nat) :
  impulse pre post 0 = repeat C0 (pre + 1 + post).
Proof.
  unfold impulse. rewrite !repeat_app, <- app_assoc. reflexivity.
Qed.

Lemma map_impulse (f : C -> C) (pre post : nat) (v v' : R) :
  f C0 = C0 -> f (v, 0) = (v', 0) ->
  map f (impulse pre post v) = impulse pre post v'.
Proof.
  intros H0 Hv. unfold impulse.
  rewrite map_app, map_cons, !map_repeat, H0, Hv. reflexivity.
Qed.

Lemma np_roll_split (a : list C) (shift : nat) :
  np_roll a shift
  = skipn (length a - Nat.modulo shift (length a)) a
    ++ firstn (length a - Nat.modulo shift (length a)) a.
Proof.
  destruct a as [|z a]; reflexivity.
Qed.

(** The impulse at index 0, rolled by half the length. *)
Lemma np_fftshift_impulse (n : nat) (v : R) :
  np_fftshift (impulse 0 n v)
  = impulse (Nat.div (S n) 2) (n - Nat.div (S n) 2) v.
Proof.
  unfold np_fftshift. rewrite impulse_length.
  replace (0 + 1 + n)%nat with (S n) by lia.
  assert (Hhalf : (Nat.div (S n) 2 <= n)%nat).
  { destruct n as [|n]; [reflexivity|].
    apply Nat.lt_succ_r. apply Nat.div_lt; lia. }
  set (s := Nat.div (S n) 2) in *.
  rewrite np_roll_split, impulse_length.
  replace (0 + 1 + n)%nat with (S n) by lia.
  rewrite Nat.mod_small by lia.
  replace (S n - s)%nat with (S (n - s)) by lia.
  unfold impulse. simpl app.
  rewrite skipn_zeros, firstn_zeros by lia.
  replace (n - (n - s))%nat with s by lia. reflexivity.
Qed.

(** ** Maximum magnitude of an impulse *)

Lemma fold_Rmax_zeros (k : nat) (m : R) :
  0 <= m -> fold_left Rmax (repeat 0 k) m = m.
Proof.
  intros Hm. induction k as [|k IH]; simpl.
  - reflexivity.
  - rewrite Rmax_left by assumption. exact IH.
Qed.

Lemma np_abs_impulse (pre post : nat) (v : R) :
  np_abs (impulse pre post v) = repeat 0 pre ++ Rabs v :: repeat 0 post.
Proof.
  unfold np_abs, impulse.
  rewrite map_app, map_cons, !map_repeat, Cabs_C0, Cabs_real. reflexivity.
Qed.

Lemma np_max_abs_impulse (pre post : nat) (v : R) :
  np_max (np_abs (impulse pre post v)) = Ok (Rabs v).
Proof.
  rewrite np_abs_impulse.
  pose proof (Rabs_pos v) as Hv.
  destruct pre as [|pre]; simpl.
  - f_equal. apply fold_Rmax_zeros. assumption.
  - f_equal. rewrite fold_left_app, fold_Rmax_zeros by lra.
    simpl. rewrite Rmax_right by assumption.
    apply fold_Rmax_zeros. assumption.
Qed.

(** ** The two normalisation passes on an impulse *)

Lemma np_true_divide_impulse (pre post : nat) (v m : R) :
  m <> 0 ->
  np_true_divide (impulse pre post v) m = Ok (impulse pre post (v / m)).
Proof.
  intros Hm. unfold np_true_divide.
  destruct (Req_dec_T m 0) as [Heq|_]; [contradiction|].
  f_equal. apply map_impulse; [apply Cdivr_C0 | apply Cdivr_real].
Qed.

Lemma np_scale_impulse (pre post : nat) (v a : R) :
  np_scale (impulse pre post v) a = impulse pre post (v * a).
Proof.
  unfold np_scale. apply map_impulse; [apply Cscale_C0 | apply Cscale_real].
Qed.

Lemma normalize_unit_impulse (pre post : nat) (a : R) :
  normalize (impulse pre post 1) a = Ok (impulse pre post a).
Proof.
  unfold normalize. rewrite np_max_abs_impulse, Rabs_R1. simpl bind.
  rewrite np_true_divide_impulse by lra. simpl bind.
  rewrite np_scale_impulse. do 2 f_equal. field.
Qed.

Lemma combine_zeros (k : nat) : forall w : list R,
  length w = k ->
  map (fun zr : C * R => Cscale (fst zr) (snd zr)) (combine (repeat C0 k) w)
  = repeat C0 k.
Proof.
  induction k as [|k IH]; intros [|r w] Hw; simpl in *; try lia; auto.
  rewrite Cscale_C0. f_equal. apply IH. lia.
Qed.

Lemma np_multiply_impulse (pre post : nat) (v : R) : forall w : list R,
  length w = (pre + 1 + post)%nat ->
  np_multiply (impulse pre post v) w
  = Ok (impulse pre post (v * nth pre w 0)).
Proof.
  intros w Hw. unfold np_multiply.
  rewrite impulse_length, Hw, Nat.eqb_refl. f_equal.
  revert w Hw. unfold impulse.
  induction pre as [|pre IH]; intros [|r w] Hw; simpl in Hw; try lia.
  - simpl. rewrite Cscale_real. f_equal. apply combine_zeros. lia.
  - simpl. rewrite Cscale_C0. f_equal. apply IH. simpl. lia.
Qed.

(** ** The Hann taper *)

Lemma np_arange_hanning (M : Z) :
  (2 <= M)%Z ->
  np_arange (1 - M) M 2
  = map (fun i => (1 - M + 2 * Z.of_nat i)%Z) (seq 0 (Z.to_nat M)).
Proof.
  intros HM. unfold np_arange.
  replace (M - (1 - M) + 2 - 1)%Z with (M * 2)%Z by lia.
  rewrite Z.div_mul by lia. reflexivity.
Qed.

Lemma np_hanning_length (M : Z) :
  (1 <= M)%Z -> length (np_hanning M) = Z.to_nat M.
Proof.
  intros HM. unfold np_hanning.
  destruct (Z.ltb_spec M 1) as [Hlt|_]; [lia|].
  destruct (Z.eqb_spec M 1) as [->|Hne]; [reflexivity|].
  rewrite np_arange_hanning by lia.
  rewrite !length_map, length_seq. reflexivity.
Qed.

Lemma np_hanning_nth (M : Z) (i : nat) :
  (2 <= M)%Z -> (i < Z.to_nat M)%nat ->
  nth i (np_hanning M) 0
  = 1/2 + 1/2 * cos (PI * IZR (1 - M + 2 * Z.of_nat i) / IZR (M - 1)).
Proof.
  intros HM Hi. unfold np_hanning.
  destruct (Z.ltb_spec M 1) as [Hlt|_]; [lia|].
  destruct (Z.eqb_spec M 1) as [Heq|_]; [lia|].
  rewrite np_arange_hanning, map_map by lia.
  set (f := fun k : nat =>
              1/2 + 1/2 * cos (PI * IZR (1 - M + 2 * Z.of_nat k) / IZR (M - 1))).
  rewrite (nth_indep _ 0 (f 0%nat)) by (rewrite length_map, length_seq; lia).
  rewrite map_nth, seq_nth by lia. reflexivity.
Qed.

(** Without centring the impulse sits on the first tap, which is zero
    as soon as the taper has two taps. *)
Lemma np_hanning_first (M : Z) :
  (2 <= M)%Z -> nth 0 (np_hanning M) 0 = 0.
Proof.
  intros HM. rewrite np_hanning_nth by lia.
  replace (1 - M + 2 * Z.of_nat 0)%Z with (- (M - 1))%Z by lia.
  assert (Hd : IZR (M - 1) <> 0) by (apply not_0_IZR; lia).
  replace (PI * IZR (- (M - 1)) / IZR (M - 1)) with (- PI)
    by (rewrite opp_IZR; field; assumption).
  rewrite cos_neg, cos_PI. lra.
Qed.

(** The tap under the centred impulse. *)
Lemma np_hanning_middle (M : Z) :
  (2 <= M)%Z ->
  nth (Z.to_nat M / 2) (np_hanning M) 0
  = 1/2 + 1/2 * cos (PI * IZR (1 - M mod 2) / IZR (M - 1)).
Proof.
  intros HM.
  assert (Hlt : (Z.to_nat M / 2 < Z.to_nat M)%nat)
    by (apply Nat.div_lt; lia).
  rewrite np_hanning_nth by assumption.
  rewrite Nat2Z.inj_div, Z2Nat.id by lia. simpl (Z.of_nat 2).
  pose proof (Z.div_mod M 2) as Hdm.
  replace (1 - M + 2 * (M / 2))%Z with (1 - M mod 2)%Z by lia.
  reflexivity.
Qed.

Lemma np_hanning_middle_two : nth (Z.to_nat 2 / 2) (np_hanning 2) 0 = 0.
Proof.
  rewrite np_hanning_middle by lia.
  change (2 mod 2)%Z with 0%Z. change (1 - 0)%Z with 1%Z.
  change (2 - 1)%Z with 1%Z.
  replace (PI * 1 / 1) with PI by field.
  rewrite cos_PI. lra.
Qed.

Lemma np_hanning_middle_pos (M : Z) :
  (3 <= M)%Z -> 0 < nth (Z.to_nat M / 2) (np_hanning M) 0.
Proof.
  intros HM. rewrite np_hanning_middle by lia.
  pose proof (Z.mod_pos_bound M 2) as Hr.
  assert (Hcases : (M mod 2 = 1 \/ M mod 2 = 0)%Z) by lia.
  destruct Hcases as [Hodd|Heven].
  - rewrite Hodd. change (1 - 1)%Z with 0%Z.
    replace (PI * 0 / IZR (M - 1)) with 0 by (unfold Rdiv; ring).
    rewrite cos_0. lra.
  - rewrite Heven. change (1 - 0)%Z with 1%Z.
    assert (HM4 : (4 <= M)%Z).
    { pose proof (Z.div_mod M 2). lia. }
    assert (Hd : 3 <= IZR (M - 1)) by (apply IZR_le; lia).
    pose proof PI_RGT_0 as Hpi.
    assert (Hx0 : 0 < PI * 1 / IZR (M - 1)).
    { apply Rdiv_lt_0_compat; lra. }
    assert (Hx1 : PI * 1 / IZR (M - 1) < PI / 2).
    { apply Rmult_lt_reg_r with (r := IZR (M - 1)); [lra|].
      unfold Rdiv at 1. rewrite Rmult_assoc, Rinv_l by lra. nra. }
    assert (Hcos : 0 < cos (PI * 1 / IZR (M - 1))).
    { apply cos_gt_0; lra. }
    lra.
Qed.

Lemma np_hanning_at_peak (N : Z) (center : bool) :
  (1 <= N)%Z ->
  if taper_keeps_peak N center
  then 0 < nth (peak_index (Z.to_nat N) center) (np_hanning N) 0
  else nth (peak_index (Z.to_nat N) center) (np_hanning N) 0 = 0.
Proof.
  intros HN. unfold taper_keeps_peak, peak_index.
  destruct (Z.eqb_spec N 1) as [->|Hne1].
  - simpl orb. cbv iota. destruct center; simpl; lra.
  - simpl orb. destruct center.
    + simpl andb. destruct (Z.eqb_spec N 2) as [->|Hne2]; simpl negb; cbv iota.
      * apply np_hanning_middle_two.
      * apply np_hanning_middle_pos. lia.
    + simpl andb. cbv iota. apply np_hanning_first. lia.
Qed.

Lemma renormalized_peak (a wp : R) :
  0 < wp -> a <> 0 -> a * wp / Rabs (a * wp) * a = Rabs a.
Proof.
  intros Hwp Ha.
  rewrite Rabs_mult, (Rabs_right wp) by lra.
  unfold Rabs. destruct (Rcase_abs a) as [Hneg|Hpos]; field; lra.
Qed.

(** The taper followed by the guarded second pass, on an impulse that
    carries the amplitude. *)
Lemma apply_window_impulse (N : Z) (pre post : nat) (a : R) :
  (1 <= N)%Z -> Z.to_nat N = (pre + 1 + post)%nat ->
  let wp := nth pre (np_hanning N) 0 in
  (0 < wp ->
   apply_window N (impulse pre post a) a = Ok (impulse pre post (Rabs a)))
  /\
  (wp = 0 ->
   apply_window N (impulse pre post a) a = Ok (impulse pre post 0)).
Proof.
  intros HN Hlen wp. unfold apply_window.
  rewrite np_multiply_impulse by (rewrite np_hanning_length; lia).
  fold wp. simpl bind. rewrite np_max_abs_impulse. simpl bind.
  split; intros Hwp.
  - destruct (Rlt_dec 0 (Rabs (a * wp))) as [Hpos|Hzero].
    + assert (Ha : a <> 0).
      { intros ->. rewrite Rmult_0_l, Rabs_R0 in Hpos. lra. }
      rewrite np_true_divide_impulse by lra. simpl bind.
      rewrite np_scale_impulse, renormalized_peak by assumption.
      reflexivity.
    + assert (Ha : a = 0).
      { destruct (Req_dec_T a 0) as [H0|Hne]; [assumption|].
        exfalso. apply Hzero. apply Rabs_pos_lt. nra. }
      subst a. rewrite Rmult_0_l, Rabs_R0. reflexivity.
  - rewrite Hwp, Rmult_0_r.
    destruct (Rlt_dec 0 (Rabs 0)) as [Hpos|_].
    + rewrite Rabs_R0 in Hpos. lra.
    + reflexivity.
Qed.

(** ** What the routine returns *)

(** For every accepted length the result is an impulse: one real sample
    at the peak index and zeros elsewhere. *)
Lemma sdr_delta_pulse_impulse (N : Z) (a : R) (window center : bool) :
  (1 <= N)%Z ->
  let n := Z.to_nat N in
  let p := peak_index n center in
  sdr_delta_pulse N a window center
  = Ok (impulse p (n - 1 - p) (final_peak N a window center)).
Proof.
  intros HN n p. unfold sdr_delta_pulse.
  rewrite time_domain_ok by assumption. fold n.
  rewrite bind_Ok. cbv beta zeta.
  assert (Hshift :
    (if center then np_fftshift (impulse 0 (n - 1) 1) else impulse 0 (n - 1) 1)
    = impulse p (n - 1 - p) 1).
  { unfold p, peak_index. destruct center.
    - rewrite np_fftshift_impulse.
      replace (S (n - 1)) with n by lia. reflexivity.
    - rewrite Nat.sub_0_r. reflexivity. }
  rewrite Hshift, normalize_unit_impulse, bind_Ok.
  unfold final_peak. destruct window; [|reflexivity].
  assert (Hp : (p < n)%nat).
  { unfold p, peak_index. destruct center; [apply Nat.div_lt|]; lia. }
  destruct (apply_window_impulse N p (n - 1 - p) a HN) as [Hkeep Hdrop];
    [fold n; lia|].
  pose proof (np_hanning_at_peak N center HN) as Htap. fold n p in Htap.
  destruct (taper_keeps_peak N center); auto.
Qed.

(** ** Facts about the returned impulse shared by the properties below *)

Lemma impulse_single_peak (pre post : nat) (v : R) (j : nat) :
  v <> 0 -> j <> pre ->
  Cabs (nth j (impulse pre post v) C0) < Cabs (nth pre (impulse pre post v) C0).
Proof.
  intros Hv Hj.
  rewrite impulse_nth_peak, impulse_nth_off by assumption.
  rewrite Cabs_C0, Cabs_real. apply Rabs_pos_lt. assumption.
Qed.

Lemma impulse_zero_samples (pre post : nat) (z : C) :
  In z (impulse pre post 0) -> z = C0.
Proof.
  rewrite impulse_zero. apply repeat_spec.
Qed.

Lemma peak_index_lt (n : nat) (center : bool) :
  (1 <= n)%nat -> (peak_index n center < n)%nat.
Proof.
  intros Hn. unfold peak_index. destruct center; [|lia].
  apply Nat.div_lt; lia.
Qed.

(** [fftshift] as a rotation: new index [j] holds old index
    [(j - n/2) mod n]. *)
Lemma np_fftshift_nth (x : list C) (j : nat) :
  (j < length x)%nat ->
  nth j (np_fftshift x) C0
  = nth (Nat.modulo (j + (length x - Nat.div (length x) 2)) (length x)) x C0.
Proof.
  intros Hj. unfold np_fftshift. rewrite np_roll_split.
  set (n := length x) in *.
  assert (Hs : (Nat.div n 2 < n)%nat) by (apply Nat.div_lt; lia).
  set (s := Nat.div n 2) in *.
  rewrite Nat.mod_small by assumption.
  destruct (Nat.lt_ge_cases j s) as [Hlt|Hge].
  - rewrite app_nth1 by (rewrite length_skipn; fold n; lia).
    rewrite nth_skipn, Nat.mod_small by lia.
    f_equal. lia.
  - rewrite app_nth2; rewrite length_skipn; fold n; [|lia].
    rewrite nth_firstn.
    destruct (Nat.ltb_spec (j - (n - (n - s))) (n - s)) as [_|Hbad]; [|lia].
    f_equal. apply Nat.mod_unique with (q := 1%nat); lia.
Qed.

(** * Properties of the synthesis operation *)

(** C5: for every length [N >= 1] and every amplitude, window flag and
    center flag, the routine returns a sequence of exactly [N] samples. *)
Theorem sdr_delta_pulse_length (N : Z) (a : R) (window center : bool) :
  (1 <= N)%Z ->
  exists y, sdr_delta_pulse N a window center = Ok y
            /\ Z.of_nat (length y) = N.
Proof.
  intros HN. eexists. split.
  - apply sdr_delta_pulse_impulse. assumption.
  - rewrite impulse_length.
    pose proof (peak_index_lt (Z.to_nat N) center). lia.
Qed.

Lemma sdr_delta_pulse_length_witness :
  (1 <= 1024)%Z /\
  exists y, sdr_delta_pulse 1024 (8/10) true true = Ok y
            /\ Z.of_nat (length y) = 1024%Z.
Proof.
  split; [lia | apply (sdr_delta_pulse_length 1024 (8/10) true true); lia].
Defined.

(** The record does not change what the routine returns. *)
Lemma sdr_delta_pulse_traced_outcome
  (N : Z) (a : R) (window center : bool) :
  snd (sdr_delta_pulse_traced N a window center)
  = sdr_delta_pulse N a window center.
Proof.
  unfold sdr_delta_pulse_traced, sdr_delta_pulse, time_domain.
  unfold tbind, run, tret, bind.
  destruct (np_ones N) as [X| |]; cbn [fst snd]; try reflexivity.
  destruct (np_ifft X) as [x| |]; cbn [fst snd]; try reflexivity.
  destruct center; cbn [fst snd];
    (destruct (normalize _ a) as [y| |]; cbn [fst snd]; try reflexivity;
     destruct window; reflexivity).
Qed.

(** C2, as stated, fails: for length 0 the error is not raised before
    any computation begins: the statement that builds the spectrum has
    completed when the inverse transform raises. *)
Lemma short_length_counterexample :
  ~ (sdr_delta_pulse_traced 0 (8/10) true true = ([], Raise ValueError)).
Proof.
  assert (Hrun : sdr_delta_pulse_traced 0 (8/10) true true
                 = ([StmtSpectrum], Raise ValueError)) by reflexivity.
  rewrite Hrun. discriminate.
Qed.

(** C2, amended: for every length [N < 1], whatever the amplitude and the
    flags, the routine raises the invalid-argument error ([ValueError])
    and returns no sequence.  It has no check of its own: for [N < 0] the
    error comes from building the spectrum, before any statement has
    completed; for [N = 0] the empty spectrum is built and the error
    comes from the inverse transform.  In both cases nothing of the
    centring, the normalisation or the window has run. *)
Theorem sdr_delta_pulse_rejects_short_length
  (N : Z) (a : R) (window center : bool) :
  (N < 1)%Z ->
  sdr_delta_pulse N a window center = Raise ValueError
  /\ sdr_delta_pulse_traced N a window center
     = (if (N <? 0)%Z then [] else [StmtSpectrum], Raise ValueError).
Proof.
  intros HN.
  assert (Htr : sdr_delta_pulse_traced N a window center
                = (if (N <? 0)%Z then [] else [StmtSpectrum],
                   Raise ValueError)).
  { unfold sdr_delta_pulse_traced, np_ones.
    destruct (Z.ltb_spec N 0) as [Hneg|Hge].
    - reflexivity.
    - replace N with 0%Z by lia. reflexivity. }
  split; [|assumption].
  rewrite <- sdr_delta_pulse_traced_outcome, Htr. reflexivity.
Qed.

Lemma sdr_delta_pulse_rejects_short_length_witness :
  (-3 < 1)%Z /\
  sdr_delta_pulse (-3) (8/10) true true = Raise ValueError
  /\ sdr_delta_pulse_traced (-3) (8/10) true true
     = (if (-3 <? 0)%Z then [] else [StmtSpectrum], Raise ValueError).
Proof.
  split; [lia|].
  apply (sdr_delta_pulse_rejects_short_length (-3) (8/10) true true). lia.
Defined.

(** C10: for every length [N >= 1] and amplitude [a > 0], with
    [window=false] and [center=false] the routine returns [N] samples,
    and the sample at index 0 is strictly larger in magnitude than every
    other sample of the result. *)
Theorem sdr_delta_pulse_plain_peak_at_0 (N : Z) (a : R) :
  (1 <= N)%Z -> 0 < a ->
  exists y, sdr_delta_pulse N a false false = Ok y
            /\ Z.of_nat (length y) = N
            /\ nth_error y 0 = Some (a, 0)
            /\ forall j, (j < length y)%nat -> j <> 0%nat ->
                 Cabs (nth j y C0) < Cabs (nth 0 y C0).
Proof.
  intros HN Ha. eexists. split; [|split; [|split]].
  - apply sdr_delta_pulse_impulse. assumption.
  - rewrite impulse_length. unfold peak_index. lia.
  - reflexivity.
  - intros j _ Hj. unfold peak_index, final_peak.
    apply impulse_single_peak; [lra | assumption].
Qed.

Lemma sdr_delta_pulse_plain_peak_at_0_witness :
  (1 <= 8)%Z /\ 0 < 1 /\
  exists y, sdr_delta_pulse 8 1 false false = Ok y
            /\ Z.of_nat (length y) = 8%Z
            /\ nth_error y 0 = Some (1, 0)
            /\ forall j, (j < length y)%nat -> j <> 0%nat ->
                 Cabs (nth j y C0) < Cabs (nth 0 y C0).
Proof.
  split; [lia|]. split; [lra|].
  apply (sdr_delta_pulse_plain_peak_at_0 8 1); [lia | lra].
Defined.

(** C6: for every length [N >= 1] and every window and center flag,
    amplitude 0 gives a result (no exception, no division by zero) in
    which every sample has magnitude 0. *)
Theorem sdr_delta_pulse_zero_amplitude (N : Z) (window center : bool) :
  (1 <= N)%Z ->
  exists y, sdr_delta_pulse N 0 window center = Ok y
            /\ forall z, In z y -> Cabs z = 0.
Proof.
  intros HN. eexists. split.
  - apply sdr_delta_pulse_impulse. assumption.
  - assert (Hpeak : final_peak N 0 window center = 0).
    { unfold final_peak. rewrite Rabs_R0.
      destruct window, (taper_keeps_peak N center); reflexivity. }
    rewrite Hpeak. intros z Hz.
    apply impulse_zero_samples in Hz. subst z. apply Cabs_C0.
Qed.

Lemma sdr_delta_pulse_zero_amplitude_witness :
  (1 <= 16)%Z /\
  exists y, sdr_delta_pulse 16 0 true false = Ok y
            /\ forall z, In z y -> Cabs z = 0.
Proof.
  split; [lia | apply (sdr_delta_pulse_zero_amplitude 16 true false); lia].
Defined.

(** C7: with length 1 and amplitude 0.8 the routine returns, for every
    window and center flag, one sample of magnitude 0.8; it neither
    raises nor divides by zero (the one-tap taper is the single tap 1). *)
Theorem sdr_delta_pulse_single_sample (window center : bool) :
  exists z, sdr_delta_pulse 1 (8/10) window center = Ok [z]
            /\ Cabs z = 8/10.
Proof.
  pose proof (sdr_delta_pulse_impulse 1 (8/10) window center) as Hrun.
  assert (Hp : peak_index (Z.to_nat 1) center = 0%nat)
    by (destruct center; reflexivity).
  cbv zeta in Hrun. rewrite Hp in Hrun.
  change (impulse 0 (Z.to_nat 1 - 1 - 0) (final_peak 1 (8/10) window center))
    with [(final_peak 1 (8/10) window center, 0)] in Hrun.
  eexists. split; [apply Hrun; lia|].
  rewrite Cabs_real. unfold final_peak.
  change (taper_keeps_peak 1 center) with true.
  destruct window; [rewrite Rabs_Rabsolu|]; apply Rabs_right; lra.
Qed.

(** C8: neither normalisation pass divides by zero.  For every length
    [N >= 1] the maximum magnitude of the (possibly centred) inverse
    transform, by which the first pass divides, is strictly positive;
    the routine never ends in a division by zero; and the second pass
    is skipped whenever the maximum magnitude after the taper is zero. *)
Theorem sdr_delta_pulse_no_zero_division
  (N : Z) (a : R) (window center : bool) :
  (1 <= N)%Z ->
  (exists x m, time_domain N = Ok x
               /\ np_max (np_abs (if center then np_fftshift x else x)) = Ok m
               /\ 0 < m)
  /\ sdr_delta_pulse N a window center <> NonFinite
  /\ (forall x xw, np_multiply x (np_hanning N) = Ok xw ->
                   np_max (np_abs xw) = Ok 0 ->
                   apply_window N x a = Ok xw).
Proof.
  intros HN. split; [|split].
  - exists (impulse 0 (Z.to_nat N - 1) 1), 1.
    split; [apply time_domain_ok; assumption|]. split; [|lra].
    destruct center.
    + rewrite np_fftshift_impulse, np_max_abs_impulse, Rabs_R1. reflexivity.
    + rewrite np_max_abs_impulse, Rabs_R1. reflexivity.
  - rewrite sdr_delta_pulse_impulse by assumption. discriminate.
  - intros x xw Hmul Hmax. unfold apply_window.
    rewrite Hmul, bind_Ok, Hmax, bind_Ok.
    destruct (Rlt_dec 0 0) as [Hbad|_]; [lra | reflexivity].
Qed.

Lemma sdr_delta_pulse_no_zero_division_witness :
  (1 <= 2)%Z /\
  (exists x m, time_domain 2 = Ok x
               /\ np_max (np_abs (if true then np_fftshift x else x)) = Ok m
               /\ 0 < m)
  /\ sdr_delta_pulse 2 (8/10) true true <> NonFinite
  /\ (forall x xw, np_multiply x (np_hanning 2) = Ok xw ->
                   np_max (np_abs xw) = Ok 0 ->
                   apply_window 2 x (8/10) = Ok xw).
Proof.
  split; [lia|].
  apply (sdr_delta_pulse_no_zero_division 2 (8/10) true true). lia.
Defined.

(** ** Concrete runs *)

(** Length 2 with the window: both taper taps are zero, the second pass
    is skipped and the result is all zero. *)
Lemma pulse_len2_windowed_centered :
  sdr_delta_pulse 2 (8/10) true true = Ok [C0; C0].
Proof.
  rewrite sdr_delta_pulse_impulse by lia. reflexivity.
Qed.

(** Length 3, centred and windowed, for an amplitude of either sign. *)
Lemma pulse_len3_windowed_centered (a : R) :
  sdr_delta_pulse 3 a true true = Ok [C0; (Rabs a, 0); C0].
Proof.
  rewrite sdr_delta_pulse_impulse by lia. reflexivity.
Qed.

Lemma even_half_rotation (n : nat) :
  (1 <= n)%nat -> Nat.even n = true ->
  Nat.modulo (0 + (n - Nat.div n 2)) n = Nat.div n 2.
Proof.
  intros Hn Heven. apply Nat.even_spec in Heven. destruct Heven as [k ->].
  rewrite (Nat.mul_comm 2 k), Nat.div_mul by lia.
  replace (0 + (k * 2 - k))%nat with k by lia.
  apply Nat.mod_small. lia.
Qed.

(** ** Properties that hold in an amended form *)

(** C1, as stated, fails: length 2, amplitude 0.8, window and centre on
    returns a sequence whose maximum magnitude is not within the relative
    tolerance 1e-5 of 0.8 (it is 0). *)
Lemma peak_magnitude_counterexample :
  ~ (exists y m, sdr_delta_pulse 2 (8/10) true true = Ok y
                 /\ np_max (np_abs y) = Ok m
                 /\ Rabs (m - 8/10) <= 8/10 / 100000).
Proof.
  intros (y & m & Hy & Hm & Hclose).
  rewrite pulse_len2_windowed_centered in Hy. injection Hy as <-.
  change [C0; C0] with (impulse 1 0 0) in Hm.
  rewrite np_max_abs_impulse, Rabs_R0 in Hm. injection Hm as <-.
  replace (0 - 8/10) with (- (8/10)) in Hclose by ring.
  rewrite Rabs_Ropp, Rabs_right in Hclose; lra.
Qed.

(** C1, amended: for every length [N >= 1] and amplitude [a > 0] the
    routine returns [N] samples; their maximum magnitude is [a] when the
    window is off, and also when the window is on and the tap under the
    impulse is positive (length 1, or centre on and length other than 2),
    where the second pass restores the amplitude; with the window on and
    length 2 both taps are zero, the guarded second pass is skipped and
    every returned sample is zero.  Nothing is said of the window with
    centring off and three samples or more. *)
Theorem sdr_delta_pulse_peak_magnitude (N : Z) (a : R) (window center : bool) :
  (1 <= N)%Z -> 0 < a ->
  exists y, sdr_delta_pulse N a window center = Ok y
            /\ Z.of_nat (length y) = N
            /\ (negb window || taper_keeps_peak N center = true ->
                np_max (np_abs y) = Ok a)
            /\ (window = true -> N = 2%Z -> forall z, In z y -> z = C0).
Proof.
  intros HN Ha. eexists. split; [|split; [|split]].
  - apply sdr_delta_pulse_impulse. assumption.
  - rewrite impulse_length.
    pose proof (peak_index_lt (Z.to_nat N) center). lia.
  - intros Hkeep. rewrite np_max_abs_impulse. f_equal.
    unfold final_peak. destruct window.
    + simpl in Hkeep. rewrite Hkeep, Rabs_Rabsolu. apply Rabs_right. lra.
    + apply Rabs_right. lra.
  - intros -> -> z. unfold final_peak.
    assert (Hdrop : taper_keeps_peak 2 center = false)
      by (destruct center; reflexivity).
    rewrite Hdrop. apply impulse_zero_samples.
Qed.

Lemma sdr_delta_pulse_peak_magnitude_witness :
  (1 <= 1024)%Z /\ 0 < 8/10 /\
  exists y, sdr_delta_pulse 1024 (8/10) true true = Ok y
            /\ Z.of_nat (length y) = 1024%Z
            /\ (negb true || taper_keeps_peak 1024 true = true ->
                np_max (np_abs y) = Ok (8/10))
            /\ (true = true -> 1024%Z = 2%Z -> forall z, In z y -> z = C0).
Proof.
  split; [lia|]. split; [lra|].
  apply (sdr_delta_pulse_peak_magnitude 1024 (8/10) true true); [lia | lra].
Defined.

(** C3, as stated, fails: length 8, amplitude 1, no window, no centring
    does not return eight equal samples each within 1e-5 of [1 + 0i]. *)
Lemma constant_sequence_counterexample :
  ~ (exists y, sdr_delta_pulse 8 1 false false = Ok y
               /\ (forall z z', In z y -> In z' y -> z = z')
               /\ (forall z, In z y ->
                     Rabs (Cabs z - 1) <= 1 / 100000
                     /\ Rabs (fst z - 1) <= 1 / 100000
                     /\ Rabs (snd z) <= 1 / 100000)).
Proof.
  intros (y & Hy & _ & Hall).
  rewrite sdr_delta_pulse_impulse in Hy by lia. injection Hy as <-.
  destruct (Hall C0) as (_ & Hre & _).
  - right. left. reflexivity.
  - change (fst C0) with 0 in Hre.
    replace (0 - 1) with (- (1)) in Hre by ring.
    rewrite Rabs_Ropp, Rabs_R1 in Hre. lra.
Qed.

(** C3, amended: length 8, amplitude 1, no window, no centring returns
    the unit impulse: the sample at index 0 is [1 + 0i] (magnitude 1,
    phase 0) and the other seven samples are zero. *)
Theorem sdr_delta_pulse_len8_unit_impulse :
  sdr_delta_pulse 8 1 false false
  = Ok [C1; C0; C0; C0; C0; C0; C0; C0].
Proof.
  rewrite sdr_delta_pulse_impulse by lia. reflexivity.
Qed.

(** C4, as stated, fails: length 2, amplitude 0.8, window and centre on
    returns a sequence that has no single largest-magnitude sample, at
    index [2 // 2] or anywhere else. *)
Lemma centered_peak_counterexample :
  ~ (exists y k, sdr_delta_pulse 2 (8/10) true true = Ok y
                 /\ (k < length y)%nat
                 /\ forall j, (j < length y)%nat -> j <> k ->
                      Cabs (nth j y C0) < Cabs (nth k y C0)).
Proof.
  intros (y & k & Hy & Hk & Hpeak).
  rewrite pulse_len2_windowed_centered in Hy. injection Hy as <-.
  simpl in Hk.
  assert (Hcases : k = 0%nat \/ k = 1%nat) by lia.
  destruct Hcases as [-> | ->].
  - specialize (Hpeak 1%nat). simpl in Hpeak. lapply Hpeak; [|lia].
    intros H. specialize (H ltac:(lia)). lra.
  - specialize (Hpeak 0%nat). simpl in Hpeak. lapply Hpeak; [|lia].
    intros H. specialize (H ltac:(lia)). lra.
Qed.

(** C4, amended: for every length [N >= 1], with [center=true] the
    routine rotates the inverse transform cyclically by [N // 2] before
    normalising (new index [j] holds old index [(j - N // 2) mod N]; for
    even [N] new index 0 holds old index [N // 2]); and when the
    amplitude is not 0 and either the window is off or [N] is not 2, the
    sample at index [N // 2] is strictly larger in magnitude than every
    other sample of the result. *)
Theorem sdr_delta_pulse_centered_peak (N : Z) (a : R) (window : bool) :
  (1 <= N)%Z ->
  let n := Z.to_nat N in
  sdr_delta_pulse N a window true
  = (x <- time_domain N ;;
     x <- normalize (np_fftshift x) a ;;
     if window then apply_window N x a else Ok x)
  /\ (forall x j, length x = n -> (j < n)%nat ->
        nth j (np_fftshift x) C0
        = nth (Nat.modulo (j + (n - Nat.div n 2)) n) x C0)
  /\ (Nat.even n = true -> forall x, length x = n ->
        nth 0 (np_fftshift x) C0 = nth (Nat.div n 2) x C0)
  /\ (a <> 0 -> window = false \/ N <> 2%Z ->
      exists y, sdr_delta_pulse N a window true = Ok y
                /\ forall j, (j < length y)%nat -> j <> Nat.div n 2 ->
                     Cabs (nth j y C0) < Cabs (nth (Nat.div n 2) y C0)).
Proof.
  intros HN n. split; [reflexivity|]. split; [|split].
  - intros x j Hx Hj. rewrite <- Hx in *. apply np_fftshift_nth. assumption.
  - intros Heven x Hx.
    rewrite np_fftshift_nth by (rewrite Hx; unfold n; lia).
    rewrite Hx, even_half_rotation by (assumption || (unfold n; lia)).
    reflexivity.
  - intros Ha Hkeep. eexists. split.
    + apply sdr_delta_pulse_impulse. assumption.
    + intros j _ Hj. fold n. unfold peak_index.
      apply impulse_single_peak; [|assumption].
      unfold final_peak, taper_keeps_peak.
      destruct Hkeep as [-> | HN2]; [assumption|].
      destruct window; [|assumption].
      destruct (Z.eqb_spec N 2) as [H2|_]; [contradiction|].
      rewrite orb_true_r. apply Rabs_no_R0. assumption.
Qed.

Lemma sdr_delta_pulse_centered_peak_witness :
  (1 <= 1024)%Z /\ 8/10 <> 0 /\ (true = false \/ 1024%Z <> 2%Z) /\
  exists y, sdr_delta_pulse 1024 (8/10) true true = Ok y
            /\ forall j, (j < length y)%nat ->
                 j <> Nat.div (Z.to_nat 1024) 2 ->
                 Cabs (nth j y C0)
                 < Cabs (nth (Nat.div (Z.to_nat 1024) 2) y C0).
Proof.
  split; [lia|]. split; [lra|]. split; [right; lia|].
  apply (sdr_delta_pulse_centered_peak 1024 (8/10) true); [lia | lra | right; lia].
Defined.

(** C9, as stated, fails: length 3, window and centre on, the sequence
    returned for amplitude -0.8 is not the elementwise negation of the
    one returned for 0.8 (the two are equal). *)
Lemma sign_flip_counterexample :
  ~ (exists y y', sdr_delta_pulse 3 (8/10) true true = Ok y
                  /\ sdr_delta_pulse 3 (- (8/10)) true true = Ok y'
                  /\ y' = map Copp y).
Proof.
  intros (y & y' & Hy & Hy' & Hneg).
  rewrite pulse_len3_windowed_centered in Hy, Hy'.
  injection Hy as <-. injection Hy' as <-.
  apply (f_equal (fun l => fst (nth 1 l C0))) in Hneg.
  simpl in Hneg. rewrite Rabs_Ropp, Rabs_right in Hneg; lra.
Qed.

(** C9, amended: for every length [N >= 1], every centre flag and every
    amplitude [a > 0], the call with amplitude [-a] returns a sequence
    (no error); with [window=false] it is the elementwise negation of
    the sequence returned for [a]; with [window=true] it equals the
    sequence returned for [a], because the second pass multiplies by the
    amplitude once more. *)
Theorem sdr_delta_pulse_negative_amplitude
  (N : Z) (a : R) (window center : bool) :
  (1 <= N)%Z -> 0 < a ->
  exists y y', sdr_delta_pulse N a window center = Ok y
               /\ sdr_delta_pulse N (- a) window center = Ok y'
               /\ if window then y' = y else y' = map Copp y.
Proof.
  intros HN Ha. do 2 eexists. split; [|split].
  - apply sdr_delta_pulse_impulse. assumption.
  - apply sdr_delta_pulse_impulse. assumption.
  - unfold final_peak. destruct window.
    + rewrite Rabs_Ropp. reflexivity.
    + symmetry. apply map_impulse; unfold Copp, C0; simpl;
        rewrite Ropp_0; reflexivity.
Qed.

Lemma sdr_delta_pulse_negative_amplitude_witness :
  (1 <= 3)%Z /\ 0 < 8/10 /\
  exists y y', sdr_delta_pulse 3 (8/10) false true = Ok y
               /\ sdr_delta_pulse 3 (- (8/10)) false true = Ok y'
               /\ if false then y' = y else y' = map Copp y.
Proof.
  split; [lia|]. split; [lra|].
  apply (sdr_delta_pulse_negative_amplitude 3 (8/10) false true); [lia | lra].
Defined.

(** * Further properties of the routine and of the demonstration script *)

(** ** Magnitudes and maxima in general *)

Lemma Cabs_nonneg (z : C) : 0 <= Cabs z.
Proof. unfold Cabs. apply sqrt_pos. Qed.

Lemma Cabs_Cscale (z : C) (r : R) : Cabs (Cscale z r) = Cabs z * Rabs r.
Proof.
  destruct z as [a b]. unfold Cabs, Cscale. simpl.
  replace (a * r * (a * r) + b * r * (b * r))
    with ((a * a + b * b) * Rsqr r) by (unfold Rsqr; ring).
  rewrite sqrt_mult by (try apply Rle_0_sqr; nra).
  rewrite sqrt_Rsqr_abs. reflexivity.
Qed.

Lemma Cabs_Cdivr (z : C) (m : R) : Cabs (Cdivr z m) = Cabs z * Rabs (/ m).
Proof.
  rewrite <- Cabs_Cscale. reflexivity.
Qed.

Lemma Cabs_zero (z : C) : Cabs z <= 0 -> z = C0.
Proof.
  intros Hz. pose proof (Cabs_nonneg z) as Hpos.
  assert (H0 : Cabs z = 0) by lra.
  destruct z as [a b]. unfold Cabs in H0. simpl in H0.
  apply sqrt_eq_0 in H0; [|nra].
  unfold C0. f_equal; nra.
Qed.

Lemma fold_Rmax_init (t : list R) : forall r, r <= fold_left Rmax t r.
Proof.
  induction t as [|a t IH]; intros r; simpl.
  - lra.
  - apply Rle_trans with (Rmax r a); [apply Rmax_l | apply IH].
Qed.

Lemma fold_Rmax_upper (t : list R) : forall r x,
  In x t -> x <= fold_left Rmax t r.
Proof.
  induction t as [|a t IH]; intros r x Hx; simpl in *.
  - contradiction.
  - destruct Hx as [<-|Hx].
    + apply Rle_trans with (Rmax r a); [apply Rmax_r | apply fold_Rmax_init].
    + apply IH. assumption.
Qed.

Lemma fold_Rmax_attained (t : list R) : forall r,
  fold_left Rmax t r = r \/ In (fold_left Rmax t r) t.
Proof.
  induction t as [|a t IH]; intros r; simpl.
  - left. reflexivity.
  - destruct (IH (Rmax r a)) as [Heq|Hin].
    + rewrite Heq. unfold Rmax. destruct (Rle_dec r a); auto.
    + right. right. assumption.
Qed.

(** [np.max] returns an element that bounds every element, and nothing
    else does. *)
Lemma np_max_char (l : list R) (m : R) :
  np_max l = Ok m <-> In m l /\ forall r, In r l -> r <= m.
Proof.
  destruct l as [|r0 t]; simpl.
  - split; [discriminate | intros [[] _]].
  - split.
    + intros Hm. injection Hm as <-. split.
      * destruct (fold_Rmax_attained t r0) as [->|Hin]; auto.
      * intros r [<-|Hr];
          [apply fold_Rmax_init | apply fold_Rmax_upper; assumption].
    + intros [Hin Hub]. f_equal. apply Rle_antisym.
      * destruct (fold_Rmax_attained t r0) as [->|Hin'].
        -- apply Hub. left. reflexivity.
        -- apply Hub. right. assumption.
      * destruct Hin as [<-|Hin];
          [apply fold_Rmax_init | apply fold_Rmax_upper; assumption].
Qed.

Lemma np_max_nonempty (l : list R) :
  l <> [] -> exists m, np_max l = Ok m.
Proof.
  destruct l as [|r t]; [contradiction|]. intros _. eexists. reflexivity.
Qed.

(** A non-decreasing map moves the maximum along. *)
Lemma np_max_map_monotone (f : R -> R) (l : list R) (m : R) :
  (forall a b, a <= b -> f a <= f b) ->
  np_max l = Ok m -> np_max (map f l) = Ok (f m).
Proof.
  intros Hf Hm. apply np_max_char in Hm. destruct Hm as [Hin Hub].
  apply np_max_char. split.
  - apply in_map. assumption.
  - intros r Hr. apply in_map_iff in Hr. destruct Hr as (a & <- & Ha).
    apply Hf, Hub. assumption.
Qed.

(** The maximum does not depend on the order of two blocks. *)
Lemma np_max_app_comm (l1 l2 : list R) :
  np_max (l1 ++ l2) = np_max (l2 ++ l1).
Proof.
  destruct (np_max (l1 ++ l2)) as [m| |] eqn:Hm.
  - symmetry. apply np_max_char. apply np_max_char in Hm.
    destruct Hm as [Hin Hub]. split.
    + apply in_app_iff. apply in_app_iff in Hin. tauto.
    + intros r Hr. apply Hub. apply in_app_iff. apply in_app_iff in Hr. tauto.
  - destruct e. destruct l1, l2; simpl in *; try discriminate. reflexivity.
  - destruct l1, l2; simpl in *; discriminate.
Qed.

(** ** The normalisation formula on an arbitrary array *)

Lemma np_abs_rescaled (x : list C) (m a : R) :
  np_abs (np_scale (map (fun z => Cdivr z m) x) a)
  = map (fun r => r * Rabs (/ m) * Rabs a) (np_abs x).
Proof.
  unfold np_abs, np_scale. rewrite !map_map. apply map_ext.
  intros z. rewrite Cabs_Cscale, Cabs_Cdivr. reflexivity.
Qed.

(** Dividing by a positive maximum and multiplying by [a] leaves the
    maximum magnitude [|a|]. *)
Lemma rescale_peak (x : list C) (m a : R) :
  np_max (np_abs x) = Ok m -> 0 < m ->
  np_true_divide x m = Ok (map (fun z => Cdivr z m) x)
  /\ np_max (np_abs (np_scale (map (fun z => Cdivr z m) x) a)) = Ok (Rabs a).
Proof.
  intros Hm Hpos. split.
  - unfold np_true_divide. destruct (Req_dec_T m 0); [lra | reflexivity].
  - rewrite np_abs_rescaled.
    assert (Hinv : 0 < / m) by (apply Rinv_0_lt_compat; assumption).
    rewrite (np_max_map_monotone _ _ m).
    + f_equal. rewrite (Rabs_right (/ m)) by lra. field. lra.
    + intros r s Hrs. pose proof (Rabs_pos (/ m)). pose proof (Rabs_pos a).
      apply Rmult_le_compat_r; [assumption|].
      apply Rmult_le_compat_r; assumption.
    + assumption.
Qed.

Lemma np_max_abs_positive (x : list C) (z : C) :
  In z x -> z <> C0 -> exists m, np_max (np_abs x) = Ok m /\ 0 < m.
Proof.
  intros Hin Hz.
  destruct (np_max_nonempty (np_abs x)) as [m Hm].
  { destruct x; [contradiction | discriminate]. }
  exists m. split; [assumption|].
  apply np_max_char in Hm. destruct Hm as [_ Hub].
  assert (Hzm : Cabs z <= m) by (apply Hub, in_map; assumption).
  destruct (Rlt_dec 0 (Cabs z)) as [Hpos|Hnot]; [lra|].
  exfalso. apply Hz, Cabs_zero. lra.
Qed.

(** X1: line 28 on any array that has a non-zero sample: the result has
    the length of the input and maximum magnitude [|amplitude|]. *)
Theorem normalize_sets_peak (x : list C) (a : R) :
  (exists z, In z x /\ z <> C0) ->
  exists y, normalize x a = Ok y
            /\ length y = length x
            /\ np_max (np_abs y) = Ok (Rabs a).
Proof.
  intros (z & Hin & Hz).
  destruct (np_max_abs_positive x z Hin Hz) as (m & Hm & Hpos).
  destruct (rescale_peak x m a Hm Hpos) as [Hdiv Hpeak].
  eexists. split; [|split].
  - unfold normalize. rewrite Hm, bind_Ok, Hdiv, bind_Ok. reflexivity.
  - unfold np_scale. rewrite !length_map. reflexivity.
  - exact Hpeak.
Qed.

Lemma normalize_sets_peak_witness :
  (exists z, In z [(3, 4); C0; (0, -1)] /\ z <> C0) /\
  exists y, normalize [(3, 4); C0; (0, -1)] 2 = Ok y
            /\ length y = length [(3, 4); C0; (0, -1)]
            /\ np_max (np_abs y) = Ok (Rabs 2).
Proof.
  assert (Hin : exists z, In z [(3, 4); C0; (0, -1)] /\ z <> C0).
  { exists (3, 4). split; [left; reflexivity|].
    unfold C0. intros H. injection H as H3 H4. lra. }
  split; [exact Hin|].
  apply (normalize_sets_peak [(3, 4); C0; (0, -1)] 2 Hin).
Defined.

(** X2: line 28 has no guard of its own: on an array of zeros it divides
    by zero, and on an empty array [np.max] raises. *)
Theorem normalize_unguarded (n : nat) (a : R) :
  normalize (repeat C0 (S n)) a = NonFinite
  /\ normalize [] a = Raise ValueError.
Proof.
  split; [|reflexivity].
  assert (Hm : np_max (np_abs (repeat C0 (S n))) = Ok 0).
  { apply np_max_char. unfold np_abs. rewrite map_repeat, Cabs_C0. split.
    - left. reflexivity.
    - intros r Hr. apply repeat_spec in Hr. lra. }
  unfold normalize. rewrite Hm, bind_Ok. unfold np_true_divide.
  destruct (Req_dec_T 0 0) as [_|Hne]; [reflexivity | contradiction].
Qed.

(** ** The taper and the second pass on an arbitrary array *)

Lemma np_multiply_same_length (x : list C) (w : list R) :
  length x = length w ->
  np_multiply x w
  = Ok (map (fun zr => Cscale (fst zr) (snd zr)) (combine x w)).
Proof.
  intros Hlen. unfold np_multiply. rewrite Hlen, Nat.eqb_refl. reflexivity.
Qed.

Lemma nth_map_C0 (f : C -> C) (l : list C) (i : nat) :
  f C0 = C0 -> nth i (map f l) C0 = f (nth i l C0).
Proof.
  intros H0. pose proof (map_nth f l C0 i) as Hnth.
  rewrite H0 in Hnth. exact Hnth.
Qed.

Lemma nth_tapered (x : list C) (w : list R) (i : nat) :
  length x = length w ->
  nth i (map (fun zr => Cscale (fst zr) (snd zr)) (combine x w)) C0
  = Cscale (nth i x C0) (nth i w 0).
Proof.
  intros Hlen.
  pose proof (map_nth (fun zr : C * R => Cscale (fst zr) (snd zr))
                      (combine x w) (C0, 0) i) as Hnth.
  rewrite (combine_nth x w i C0 0 Hlen) in Hnth.
  cbv beta in Hnth. simpl fst in Hnth. simpl snd in Hnth.
  rewrite Cscale_C0 in Hnth. exact Hnth.
Qed.

Lemma np_hanning_last (M : Z) :
  (2 <= M)%Z -> nth (Z.to_nat M - 1) (np_hanning M) 0 = 0.
Proof.
  intros HM. rewrite np_hanning_nth by lia.
  replace (1 - M + 2 * Z.of_nat (Z.to_nat M - 1))%Z with (M - 1)%Z by lia.
  assert (Hd : IZR (M - 1) <> 0) by (apply not_0_IZR; lia).
  replace (PI * IZR (M - 1) / IZR (M - 1)) with PI by (field; assumption).
  rewrite cos_PI. lra.
Qed.

(** The block computes the tapered array, takes its maximum magnitude
    and rescales exactly when that maximum is positive. *)
Lemma apply_window_run (N : Z) (x : list C) (a : R) :
  (1 <= N)%Z -> Z.of_nat (length x) = N ->
  exists xw mv,
    length xw = length x
    /\ (forall i, nth i xw C0 = Cscale (nth i x C0) (nth i (np_hanning N) 0))
    /\ np_max (np_abs xw) = Ok mv
    /\ apply_window N x a
       = if Rlt_dec 0 mv
         then Ok (np_scale (map (fun z => Cdivr z mv) xw) a)
         else Ok xw.
Proof.
  intros HN Hx.
  assert (Hlen : length x = length (np_hanning N))
    by (rewrite np_hanning_length; lia).
  set (xw := map (fun zr : C * R => Cscale (fst zr) (snd zr))
                 (combine x (np_hanning N))).
  assert (Hxw : length xw = length x).
  { unfold xw. rewrite length_map, length_combine, <- Hlen. apply Nat.min_id. }
  destruct (np_max_nonempty (np_abs xw)) as [mv Hmv].
  { unfold np_abs. destruct xw; [simpl in Hxw; lia | discriminate]. }
  exists xw, mv. split; [assumption|]. split; [|split; [assumption|]].
  - intros i. unfold xw. apply nth_tapered. assumption.
  - unfold apply_window. cbv zeta.
    rewrite np_multiply_same_length by assumption. fold xw.
    rewrite bind_Ok, Hmv, bind_Ok.
    destruct (Rlt_dec 0 mv) as [Hpos|Hzero]; [|reflexivity].
    unfold np_true_divide. destruct (Req_dec_T mv 0); [lra | reflexivity].
Qed.

(** X3: lines 31 to 37 on any array of [N >= 1] samples: the block
    returns an array of the same length and never divides by zero; the
    result either has maximum magnitude [|amplitude|] or is all zero. *)
Theorem apply_window_guarded (N : Z) (x : list C) (a : R) :
  (1 <= N)%Z -> Z.of_nat (length x) = N ->
  exists y, apply_window N x a = Ok y
            /\ length y = length x
            /\ (np_max (np_abs y) = Ok (Rabs a)
                \/ forall z, In z y -> z = C0).
Proof.
  intros HN Hx.
  destruct (apply_window_run N x a HN Hx) as (xw & mv & Hxw & _ & Hmv & Hrun).
  rewrite Hrun. destruct (Rlt_dec 0 mv) as [Hpos|Hzero].
  - destruct (rescale_peak xw mv a Hmv Hpos) as [_ Hpeak].
    eexists. split; [reflexivity|]. split.
    + unfold np_scale. rewrite !length_map. assumption.
    + left. exact Hpeak.
  - exists xw. split; [reflexivity|]. split; [assumption|].
    right. intros z Hz. apply Cabs_zero.
    apply np_max_char in Hmv. destruct Hmv as [_ Hub].
    assert (Cabs z <= mv) by (apply Hub, in_map; assumption). lra.
Qed.

Lemma apply_window_guarded_witness :
  (1 <= 3)%Z /\ Z.of_nat (length [C1; (0, 2); C1]) = 3%Z /\
  exists y, apply_window 3 [C1; (0, 2); C1] (8/10) = Ok y
            /\ length y = length [C1; (0, 2); C1]
            /\ (np_max (np_abs y) = Ok (Rabs (8/10))
                \/ forall z, In z y -> z = C0).
Proof.
  split; [lia|]. split; [reflexivity|].
  apply (apply_window_guarded 3 [C1; (0, 2); C1] (8/10)); [lia | reflexivity].
Defined.

(** X4: with two or more taps the taper is zero at both ends, so lines
    31 to 37 return an array of the same length whose first and last
    samples are zero, whatever the input array. *)
Theorem apply_window_zero_edges (N : Z) (x : list C) (a : R) :
  (2 <= N)%Z -> Z.of_nat (length x) = N ->
  exists y, apply_window N x a = Ok y
            /\ length y = length x
            /\ nth_error y 0 = Some C0
            /\ nth_error y (length x - 1) = Some C0.
Proof.
  intros HN Hx.
  destruct (apply_window_run N x a) as (xw & mv & Hxw & Hnth & _ & Hrun);
    [lia | assumption |].
  assert (Hfirst : nth 0 xw C0 = C0).
  { rewrite Hnth, np_hanning_first by assumption.
    unfold Cscale, C0. f_equal; ring. }
  assert (Hlast : nth (length x - 1) xw C0 = C0).
  { rewrite Hnth. replace (length x) with (Z.to_nat N) by lia.
    rewrite np_hanning_last by assumption.
    unfold Cscale, C0. f_equal; ring. }
  rewrite Hrun. destruct (Rlt_dec 0 mv) as [Hpos|Hzero].
  - eexists. split; [reflexivity|].
    assert (Hlen : length (np_scale (map (fun z => Cdivr z mv) xw) a)
                   = length x)
      by (unfold np_scale; rewrite !length_map; assumption).
    split; [assumption|].
    rewrite !(nth_error_nth' _ C0) by (rewrite Hlen; lia).
    unfold np_scale. rewrite map_map.
    rewrite !(nth_map_C0 (fun z => Cscale (Cdivr z mv) a))
      by (rewrite Cdivr_C0; apply Cscale_C0).
    rewrite Hfirst, Hlast, Cdivr_C0, Cscale_C0. split; reflexivity.
  - exists xw. split; [reflexivity|]. split; [assumption|].
    rewrite !(nth_error_nth' _ C0) by (rewrite Hxw; lia).
    rewrite Hfirst, Hlast. split; reflexivity.
Qed.

Lemma apply_window_zero_edges_witness :
  (2 <= 3)%Z /\ Z.of_nat (length [C1; (0, 2); C1]) = 3%Z /\
  exists y, apply_window 3 [C1; (0, 2); C1] (8/10) = Ok y
            /\ length y = length [C1; (0, 2); C1]
            /\ nth_error y 0 = Some C0
            /\ nth_error y (length [C1; (0, 2); C1] - 1) = Some C0.
Proof.
  split; [lia|]. split; [reflexivity|].
  apply (apply_window_zero_edges 3 [C1; (0, 2); C1] (8/10));
    [lia | reflexivity].
Defined.

(** ** Centring against normalising *)

Lemma np_fftshift_map (f : C -> C) (x : list C) :
  np_fftshift (map f x) = map f (np_fftshift x).
Proof.
  unfold np_fftshift. rewrite !np_roll_split, length_map.
  rewrite map_app, skipn_map, firstn_map. reflexivity.
Qed.

(** Centring does not change the divisor of the first pass. *)
Lemma np_max_abs_fftshift (x : list C) :
  np_max (np_abs (np_fftshift x)) = np_max (np_abs x).
Proof.
  unfold np_fftshift. rewrite np_roll_split. unfold np_abs.
  rewrite map_app, np_max_app_comm, <- map_app, firstn_skipn. reflexivity.
Qed.

(** X5: lines 24 to 28: centring and normalising commute on every array,
    so the routine called without the window and with [center=true]
    returns the centred result of the call with [center=false], for
    every length (an error is passed through unchanged). *)
Theorem centering_commutes_with_normalize :
  (forall x a,
     normalize (np_fftshift x) a
     = (y <- normalize x a ;; Ok (np_fftshift y)))
  /\ (forall N a,
        sdr_delta_pulse N a false true
        = (y <- sdr_delta_pulse N a false false ;; Ok (np_fftshift y))).
Proof.
  assert (Hgen : forall x a,
             normalize (np_fftshift x) a
             = (y <- normalize x a ;; Ok (np_fftshift y))).
  { intros x a. unfold normalize. rewrite np_max_abs_fftshift.
    destruct (np_max (np_abs x)) as [m| |]; try reflexivity.
    rewrite !bind_Ok. unfold np_true_divide.
    destruct (Req_dec_T m 0); [reflexivity|].
    rewrite !bind_Ok. unfold np_scale.
    rewrite <- !np_fftshift_map. reflexivity. }
  split; [exact Hgen|].
  intros N a. unfold sdr_delta_pulse.
  destruct (time_domain N) as [x| |]; try reflexivity.
  rewrite !bind_Ok. rewrite Hgen.
  destruct (normalize x a) as [y| |]; reflexivity.
Qed.

(** ** The returned pulse, sample by sample *)

Lemma impulse_samples (pre post : nat) (v : R) (z : C) :
  In z (impulse pre post v) -> z = C0 \/ z = (v, 0).
Proof.
  unfold impulse. intros Hz. apply in_app_iff in Hz.
  destruct Hz as [Hz|[Hz|Hz]].
  - left. apply repeat_spec in Hz. assumption.
  - right. symmetry. assumption.
  - left. apply repeat_spec in Hz. assumption.
Qed.

(** X6: for every length [N >= 1], when the window is off or the tap
    under the impulse is positive (length 1, or centre on and length
    other than 2), the routine returns [N] samples that form a delta: the
    sample at the peak index (0, or [N // 2] when centred) is the real
    number [amplitude] (window off) or [|amplitude|] (window on), and
    every other sample is zero. *)
Theorem sdr_delta_pulse_exact_delta (N : Z) (a : R) (window center : bool) :
  (1 <= N)%Z ->
  negb window || taper_keeps_peak N center = true ->
  let p := peak_index (Z.to_nat N) center in
  exists y, sdr_delta_pulse N a window center = Ok y
            /\ Z.of_nat (length y) = N
            /\ nth_error y p = Some (if window then Rabs a else a, 0)
            /\ (forall j, (j < length y)%nat -> j <> p ->
                  nth_error y j = Some C0).
Proof.
  intros HN Hkeep p.
  assert (Hp : (p < Z.to_nat N)%nat) by (apply peak_index_lt; lia).
  assert (Hv : final_peak N a window center = if window then Rabs a else a).
  { unfold final_peak. destruct window; [|reflexivity].
    simpl in Hkeep. rewrite Hkeep. reflexivity. }
  eexists. split; [|split; [|split]].
  - apply sdr_delta_pulse_impulse. assumption.
  - rewrite impulse_length. fold p. lia.
  - fold p. rewrite (nth_error_nth' _ C0) by (rewrite impulse_length; lia).
    rewrite impulse_nth_peak, Hv. reflexivity.
  - intros j Hj Hne. fold p in Hj |- *.
    rewrite (nth_error_nth' _ C0) by assumption.
    rewrite impulse_nth_off by assumption. reflexivity.
Qed.

Lemma sdr_delta_pulse_exact_delta_witness :
  (1 <= 1024)%Z /\ negb true || taper_keeps_peak 1024 true = true /\
  exists y, sdr_delta_pulse 1024 (- (8/10)) true true = Ok y
            /\ Z.of_nat (length y) = 1024%Z
            /\ nth_error y (peak_index (Z.to_nat 1024) true)
               = Some (if true then Rabs (- (8/10)) else - (8/10), 0)
            /\ (forall j, (j < length y)%nat ->
                  j <> peak_index (Z.to_nat 1024) true ->
                  nth_error y j = Some C0).
Proof.
  split; [lia|]. split; [reflexivity|].
  apply (sdr_delta_pulse_exact_delta 1024 (- (8/10)) true true);
    [lia | reflexivity].
Defined.

(** X7: for every length [N >= 1], every flag combination and every real
    amplitude, no returned sample exceeds [|amplitude|] in magnitude. *)
Theorem sdr_delta_pulse_bounded (N : Z) (a : R) (window center : bool) :
  (1 <= N)%Z ->
  exists y, sdr_delta_pulse N a window center = Ok y
            /\ forall z, In z y -> Cabs z <= Rabs a.
Proof.
  intros HN. eexists. split.
  - apply sdr_delta_pulse_impulse. assumption.
  - intros z Hz. apply impulse_samples in Hz. destruct Hz as [-> | ->].
    + rewrite Cabs_C0. apply Rabs_pos.
    + rewrite Cabs_real. unfold final_peak.
      destruct window; [|lra].
      destruct (taper_keeps_peak N center).
      * rewrite Rabs_Rabsolu. lra.
      * rewrite Rabs_R0. apply Rabs_pos.
Qed.

Lemma sdr_delta_pulse_bounded_witness :
  (1 <= 1024)%Z /\
  exists y, sdr_delta_pulse 1024 (8/10) true true = Ok y
            /\ forall z, In z y -> Cabs z <= Rabs (8/10).
Proof.
  split; [lia|].
  apply (sdr_delta_pulse_bounded 1024 (8/10) true true). lia.
Defined.

(** ** The forward transform *)

Lemma Cadd_C0_l (z : C) : Cadd C0 z = z.
Proof. destruct z. unfold Cadd, C0. simpl. f_equal; ring. Qed.

Lemma Cadd_C0_r (z : C) : Cadd z C0 = z.
Proof. destruct z. unfold Cadd, C0. simpl. f_equal; ring. Qed.

Lemma Cadd_assoc (u v w : C) : Cadd u (Cadd v w) = Cadd (Cadd u v) w.
Proof. unfold Cadd. simpl. f_equal; ring. Qed.

Lemma Cmul_C0_l (z : C) : Cmul C0 z = C0.
Proof. unfold Cmul, C0. simpl. f_equal; ring. Qed.

Lemma Cmul_C0_r (z : C) : Cmul z C0 = C0.
Proof. unfold Cmul, C0. simpl. f_equal; ring. Qed.

Lemma Cmul_Cadd_distr (u v w : C) :
  Cmul u (Cadd v w) = Cadd (Cmul u v) (Cmul u w).
Proof. unfold Cmul, Cadd. simpl. f_equal; ring. Qed.

Lemma Cmul_swap (u v w : C) : Cmul v (Cmul u w) = Cmul u (Cmul v w).
Proof. unfold Cmul. simpl. f_equal; ring. Qed.

Lemma cis_plus (s t : R) : cis (s + t) = Cmul (cis s) (cis t).
Proof.
  unfold cis, Cmul. simpl. rewrite cos_plus, sin_plus. f_equal; ring.
Qed.

Lemma cis_full_turns (m : nat) : cis (- (2 * PI * INR m)) = C1.
Proof.
  unfold cis, C1. rewrite cos_neg, sin_neg.
  replace (2 * PI * INR m) with (0 + 2 * INR m * PI) by ring.
  rewrite cos_period, sin_period, cos_0, sin_0. f_equal. ring.
Qed.

Lemma cis_half_turn_odd (m : nat) : cis (- (PI * INR (2 * m + 1))) = (-1, 0).
Proof.
  unfold cis. rewrite cos_neg, sin_neg.
  replace (PI * INR (2 * m + 1)) with (PI + 2 * INR m * PI).
  - rewrite cos_period, sin_period, cos_PI, sin_PI. f_equal. ring.
  - rewrite plus_INR, mult_INR. simpl. ring.
Qed.

Section ForwardSum.

Variables N k : nat.

(** The terms of bin [k] over the samples [l], numbered from [s]. *)
Local Abbreviation dft_sum s l :=
  (Csum (map (dft_term N k) (combine (seq s (length l)) l))).

Lemma dft_sum_app (l1 l2 : list C) : forall s,
  dft_sum s (l1 ++ l2)
  = Cadd (dft_sum s l1) (dft_sum (s + length l1) l2).
Proof.
  induction l1 as [|z l1 IH]; intros s.
  - simpl. rewrite Nat.add_0_r, Cadd_C0_l. reflexivity.
  - simpl. rewrite IH, Cadd_assoc.
    replace (S s + length l1)%nat with (s + S (length l1))%nat by lia.
    reflexivity.
Qed.

Lemma dft_sum_zeros (m : nat) : forall s, dft_sum s (repeat C0 m) = C0.
Proof.
  induction m as [|m IH]; intros s.
  - reflexivity.
  - simpl. rewrite IH. unfold dft_term. simpl.
    rewrite Cmul_C0_l. apply Cadd_C0_l.
Qed.

(** Moving the samples [d] places further multiplies every term by the
    same phase. *)
Lemma dft_sum_shift (d : nat) (l : list C) : forall s,
  dft_sum (d + s) l
  = Cmul (cis (- (2 * PI * INR d * INR k / INR N))) (dft_sum s l).
Proof.
  induction l as [|z l IH]; intros s.
  - simpl. rewrite Cmul_C0_r. reflexivity.
  - simpl. rewrite Cmul_Cadd_distr. f_equal.
    + unfold dft_term. simpl fst. simpl snd.
      rewrite Cmul_swap. f_equal. rewrite <- cis_plus. f_equal.
      rewrite plus_INR. unfold Rdiv. ring.
    + replace (S (d + s)) with (d + S s)%nat by lia. apply IH.
Qed.

End ForwardSum.

Lemma Cabs_Cmul_cis (z : C) (t : R) : Cabs (Cmul z (cis t)) = Cabs z.
Proof.
  destruct z as [a b]. unfold Cabs, Cmul, cis. simpl. f_equal.
  pose proof (sin2_cos2 t) as Hunit. unfold Rsqr in Hunit.
  replace ((a * cos t - b * sin t) * (a * cos t - b * sin t)
           + (a * sin t + b * cos t) * (a * sin t + b * cos t))
    with ((a * a + b * b) * (sin t * sin t + cos t * cos t)) by ring.
  rewrite Hunit. ring.
Qed.

Lemma nth_map_seq (f : nat -> C) (len k : nat) :
  (k < len)%nat -> nth k (map f (seq 0 len)) C0 = f k.
Proof.
  intros Hk.
  rewrite (nth_indep _ C0 (f 0%nat)) by (rewrite length_map, length_seq; lia).
  rewrite map_nth, seq_nth by lia. reflexivity.
Qed.

Lemma np_fft_nonempty (x : list C) :
  x <> [] -> np_fft x = Ok (map (fft_sample x) (seq 0 (length x))).
Proof.
  destruct x; [contradiction | reflexivity].
Qed.

(** Bin [k] of an impulse is the peak sample turned by a phase. *)
Lemma fft_sample_impulse (pre post : nat) (v : R) (k : nat) :
  fft_sample (impulse pre post v) k
  = Cmul (v, 0)
         (cis (- (2 * PI * INR pre * INR k / INR (pre + 1 + post)))).
Proof.
  unfold fft_sample. cbv zeta. rewrite impulse_length at 1.
  unfold impulse. rewrite dft_sum_app, dft_sum_zeros, repeat_length.
  rewrite Cadd_C0_l.
  change (length ((v, 0) :: repeat C0 post))
    with (S (length (repeat C0 post))).
  rewrite <- cons_seq. simpl combine. simpl map. simpl Csum.
  rewrite dft_sum_zeros, Cadd_C0_r. reflexivity.
Qed.

Section Doubling.

Variable x : list C.
Hypothesis x_nonempty : x <> [].

Lemma length_pos_INR : 0 < INR (length x).
Proof.
  apply lt_0_INR. destruct x; [contradiction | simpl; lia].
Qed.

(** The two halves of the doubled array give the same sum up to the
    phase [exp(-i pi k)]. *)
Lemma fft_sample_doubled (k : nat) :
  fft_sample (x ++ x) k
  = Cadd (Csum (map (dft_term (length x + length x) k)
                    (combine (seq 0 (length x)) x)))
         (Cmul (cis (- (PI * INR k)))
               (Csum (map (dft_term (length x + length x) k)
                          (combine (seq 0 (length x)) x)))).
Proof.
  pose proof length_pos_INR as Hn.
  unfold fft_sample. cbv zeta. rewrite length_app at 1.
  rewrite dft_sum_app. f_equal.
  replace (0 + length x)%nat with (length x + 0)%nat by lia.
  rewrite dft_sum_shift. f_equal. f_equal. f_equal.
  rewrite plus_INR. field. lra.
Qed.

Lemma dft_terms_halved (m : nat) :
  Csum (map (dft_term (length x + length x) (2 * m))
            (combine (seq 0 (length x)) x))
  = fft_sample x m.
Proof.
  pose proof length_pos_INR as Hn.
  unfold fft_sample. cbv zeta. f_equal. apply map_ext.
  intros [j z]. unfold dft_term. simpl fst. simpl snd. do 3 f_equal.
  rewrite plus_INR, mult_INR. simpl INR. field. lra.
Qed.

Lemma fft_sample_doubled_even (m : nat) :
  fft_sample (x ++ x) (2 * m) = Cscale (fft_sample x m) 2.
Proof.
  rewrite fft_sample_doubled, dft_terms_halved.
  replace (PI * INR (2 * m)) with (2 * PI * INR m)
    by (rewrite mult_INR; simpl INR; ring).
  rewrite cis_full_turns, Cmul_C1_l.
  destruct (fft_sample x m) as [a b]. unfold Cadd, Cscale. simpl.
  f_equal; ring.
Qed.

Lemma fft_sample_doubled_odd (m : nat) :
  fft_sample (x ++ x) (2 * m + 1) = C0.
Proof.
  rewrite fft_sample_doubled, cis_half_turn_odd.
  match goal with |- Cadd ?s _ = _ => destruct s as [a b] end.
  unfold Cadd, Cmul, C0. simpl. f_equal; ring.
Qed.

End Doubling.

Lemma freq_response_doubled (pulse : list C) :
  pulse <> [] ->
  freq_response pulse
  = Ok (map (fft_sample (pulse ++ pulse))
            (seq 0 (length pulse + length pulse))).
Proof.
  intros Hne. unfold freq_response.
  assert (Hcat : np_concatenate [pulse; pulse] = Ok (pulse ++ pulse)).
  { unfold np_concatenate. simpl concat. rewrite app_nil_r. reflexivity. }
  rewrite Hcat, bind_Ok, np_fft_nonempty, length_app.
  - reflexivity.
  - intros Happ. apply app_eq_nil in Happ. destruct Happ. contradiction.
Qed.

(** X8: lines 50 and 74 on any non-empty pulse: the transform of the
    pulse followed by itself has twice as many bins; every even bin
    [2m] is twice bin [m] of the transform of the pulse, and every odd
    bin is zero. *)
Theorem freq_response_comb (pulse : list C) :
  pulse <> [] ->
  exists P Y, np_fft pulse = Ok P
              /\ freq_response pulse = Ok Y
              /\ length Y = (2 * length pulse)%nat
              /\ forall m, (m < length pulse)%nat ->
                   nth (2 * m) Y C0 = Cscale (nth m P C0) 2
                   /\ nth (2 * m + 1) Y C0 = C0.
Proof.
  intros Hne. do 2 eexists.
  split; [apply np_fft_nonempty; assumption|].
  split; [apply freq_response_doubled; assumption|].
  split.
  - rewrite length_map, length_seq. lia.
  - intros m Hm. rewrite !nth_map_seq by lia. split.
    + apply fft_sample_doubled_even. assumption.
    + apply fft_sample_doubled_odd. assumption.
Qed.

Lemma freq_response_comb_witness :
  [C1; Copp C1; C0] <> [] /\
  exists P Y, np_fft [C1; Copp C1; C0] = Ok P
              /\ freq_response [C1; Copp C1; C0] = Ok Y
              /\ length Y = (2 * length [C1; Copp C1; C0])%nat
              /\ forall m, (m < length [C1; Copp C1; C0])%nat ->
                   nth (2 * m) Y C0 = Cscale (nth m P C0) 2
                   /\ nth (2 * m + 1) Y C0 = C0.
Proof.
  split; [discriminate|].
  apply (freq_response_comb [C1; Copp C1; C0]). discriminate.
Defined.

(** X9: the spectrum the script computes from a synthesised pulse, for
    every call with [N >= 1] in which the window is off or the tap under
    the impulse is positive (length 1, or centre on and length other
    than 2): the doubled pulse has [2 N] bins, every even bin has
    magnitude twice the peak magnitude of the pulse, and every odd bin is
    zero. *)
Theorem pulse_freq_response (N : Z) (a : R) (window center : bool) :
  (1 <= N)%Z ->
  negb window || taper_keeps_peak N center = true ->
  exists pulse Y,
    sdr_delta_pulse N a window center = Ok pulse
    /\ np_max (np_abs pulse) = Ok (Rabs a)
    /\ freq_response pulse = Ok Y
    /\ length Y = (2 * Z.to_nat N)%nat
    /\ forall m, (m < Z.to_nat N)%nat ->
         Cabs (nth (2 * m) Y C0) = 2 * Rabs a
         /\ nth (2 * m + 1) Y C0 = C0.
Proof.
  intros HN Hkeep.
  set (n := Z.to_nat N). set (p := peak_index n center).
  set (v := final_peak N a window center).
  assert (Hv : Rabs v = Rabs a).
  { unfold v, final_peak. destruct window; [|reflexivity].
    simpl in Hkeep. rewrite Hkeep. apply Rabs_Rabsolu. }
  assert (Hp : (p < n)%nat) by (apply peak_index_lt; unfold n; lia).
  assert (Hlen : length (impulse p (n - 1 - p) v) = n)
    by (rewrite impulse_length; lia).
  assert (Hne : impulse p (n - 1 - p) v <> []).
  { intros Hnil. rewrite Hnil in Hlen. simpl in Hlen. lia. }
  exists (impulse p (n - 1 - p) v).
  eexists. split; [apply sdr_delta_pulse_impulse; assumption|].
  split; [rewrite np_max_abs_impulse, Hv; reflexivity|].
  split; [apply freq_response_doubled; assumption|].
  split.
  - rewrite length_map, length_seq, Hlen. lia.
  - intros m Hm. rewrite !nth_map_seq by (rewrite Hlen; lia). split.
    + rewrite fft_sample_doubled_even by assumption.
      rewrite Cabs_Cscale, fft_sample_impulse, Cabs_Cmul_cis, Cabs_real, Hv.
      rewrite (Rabs_right 2) by lra. ring.
    + apply fft_sample_doubled_odd. assumption.
Qed.

Lemma pulse_freq_response_witness :
  (1 <= 1024)%Z /\ negb true || taper_keeps_peak 1024 true = true /\
  exists pulse Y,
    sdr_delta_pulse 1024 (8/10) true true = Ok pulse
    /\ np_max (np_abs pulse) = Ok (Rabs (8/10))
    /\ freq_response pulse = Ok Y
    /\ length Y = (2 * Z.to_nat 1024)%nat
    /\ forall m, (m < Z.to_nat 1024)%nat ->
         Cabs (nth (2 * m) Y C0) = 2 * Rabs (8/10)
         /\ nth (2 * m + 1) Y C0 = C0.
Proof.
  split; [lia|]. split; [reflexivity|].
  apply (pulse_freq_response 1024 (8/10) true true); [lia | reflexivity].
Defined.

(** X10: the forward transform undoes the inverse transform of line 21:
    for every [N >= 1], transforming the time-domain impulse gives back
    the flat spectrum of [N] ones. *)
Theorem np_fft_of_time_domain (N : Z) :
  (1 <= N)%Z ->
  exists X x, np_ones N = Ok X
              /\ np_ifft X = Ok x
              /\ np_fft x = Ok X.
Proof.
  intros HN.
  assert (Hones : np_ones N = Ok (repeat C1 (Z.to_nat N))).
  { unfold np_ones. destruct (Z.ltb_spec N 0); [lia | reflexivity]. }
  pose proof (time_domain_ok N HN) as Htd.
  unfold time_domain in Htd. rewrite Hones, bind_Ok in Htd.
  exists (repeat C1 (Z.to_nat N)), (impulse 0 (Z.to_nat N - 1) 1).
  split; [assumption|]. split; [assumption|].
  rewrite np_fft_nonempty by discriminate.
  rewrite impulse_length. f_equal.
  replace (0 + 1 + (Z.to_nat N - 1))%nat with (Z.to_nat N) by lia.
  rewrite (map_const _ C1).
  - rewrite length_seq. reflexivity.
  - intros k _. rewrite fft_sample_impulse.
    replace (- (2 * PI * INR 0 * INR k / INR (0 + 1 + (Z.to_nat N - 1))))
      with 0 by (simpl INR; unfold Rdiv; ring).
    unfold cis. rewrite cos_0, sin_0. apply Cmul_C1_l.
Qed.

Lemma np_fft_of_time_domain_witness :
  (1 <= 8)%Z /\
  exists X x, np_ones 8 = Ok X /\ np_ifft X = Ok x /\ np_fft x = Ok X.
Proof.
  split; [lia | apply (np_fft_of_time_domain 8); lia].
Defined.

(** ** The decibel scale of the script *)

Lemma ln_10_pos : 0 < ln 10.
Proof.
  rewrite <- ln_1. apply ln_increasing; lra.
Qed.

Lemma np_log10_offset (c : R) :
  0 <= c ->
  exists l, np_log10 (c + 1 / 10 ^ 10) = Ok l
            /\ -10 <= l
            /\ (c = 0 -> l = -10).
Proof.
  intros Hc.
  assert (Hpow : 0 < 10 ^ 10) by (apply pow_lt; lra).
  assert (He : 0 < 1 / 10 ^ 10).
  { unfold Rdiv. rewrite Rmult_1_l. apply Rinv_0_lt_compat. assumption. }
  assert (Hfloor : ln (1 / 10 ^ 10) = - (10 * ln 10)).
  { unfold Rdiv. rewrite Rmult_1_l, ln_Rinv, ln_pow by lra.
    simpl INR. ring. }
  assert (Hmono : ln (1 / 10 ^ 10) <= ln (c + 1 / 10 ^ 10)).
  { destruct (Req_dec_T c 0) as [-> | Hne].
    - rewrite Rplus_0_l. lra.
    - left. apply ln_increasing; lra. }
  pose proof ln_10_pos as H10.
  unfold np_log10. destruct (Rlt_dec 0 (c + 1 / 10 ^ 10)) as [_|Hbad]; [|lra].
  eexists. split; [reflexivity|]. split.
  - apply Rmult_le_reg_r with (r := ln 10); [assumption|].
    unfold Rdiv. rewrite Rmult_assoc, Rinv_l by lra. lra.
  - intros ->. rewrite Rplus_0_l, Hfloor. field. lra.
Qed.

Lemma map_outcome_cons {A B : Type} (f : A -> outcome B) (a : A) (t : list A) :
  map_outcome f (a :: t)
  = (b <- f a ;; bs <- map_outcome f t ;; Ok (b :: bs)).
Proof. reflexivity. Qed.

(** X11: line 83: thanks to the offset [1e-10] the logarithm never meets
    zero: for every spectrum the decibel array exists, has the length of
    the spectrum, and no entry is below -200 dB; a bin that is zero shows
    exactly -200 dB. *)
Theorem magnitude_db_floor (response : list C) :
  exists d, magnitude_db response = Ok d
            /\ length d = length response
            /\ (forall r, In r d -> -200 <= r)
            /\ (forall i, (i < length response)%nat ->
                  nth i response C0 = C0 -> nth i d 0 = -200).
Proof.
  unfold magnitude_db.
  induction response as [|z response IH].
  - exists []. split; [reflexivity|]. split; [reflexivity|]. split.
    + intros r [].
    + intros i Hi. simpl in Hi. lia.
  - destruct IH as (d & Hd & Hlen & Hfloor & Hzero).
    destruct (np_log10_offset (Cabs z) (Cabs_nonneg z))
      as (l & Hl & Hl10 & Hl0).
    exists (20 * l :: d). split; [|split; [|split]].
    + change (np_abs (z :: response)) with (Cabs z :: np_abs response).
      rewrite map_outcome_cons, Hl, !bind_Ok, Hd, bind_Ok. reflexivity.
    + simpl. rewrite Hlen. reflexivity.
    + intros r [<-|Hr]; [lra | apply Hfloor; assumption].
    + intros [|i] Hi Hz; simpl in Hi, Hz |- *.
      * subst z. rewrite Hl0 by apply Cabs_C0. lra.
      * apply Hzero; [lia | assumption].
Qed.
